(** * sharpest_frame_extractor: the per-interval sharpest-frame selection

    A shallow embedding of [sharpest_frame_extractor.py].

    Conventions of the embedding.
    - A Python float ([fps], [interval_sec], the focus measure) is the
      rational number it stands for. The result of a float division is
      rounded to binary64 ([round64]: to nearest, ties to even, subnormal
      numbers included), and so is the conversion of an [int] operand.
      Float floor division is the floor of the exact quotient, which is
      what CPython returns for quotients below 2^53. Infinities and NaN are
      not values of the embedding: a run in which a quotient overflows, or
      in which [int()] raises [OverflowError] or [ValueError], is outside
      it.
    - [cap.read()] is a finite list of frames, consumed front to back.
    - A generator is the list of the pairs it yields, together with the way
      its body ends ([Returned] or [Raised]).
    - [cv2.cvtColor] followed by [variance_of_laplacian] is one function
      [focus_of] from frames to scores, a parameter of the development.
    - [os.makedirs] is recorded as an event; a run in which it raises is
      outside the embedding. *)

From Stdlib Require Import ZArith QArith Qround Qpower List Sorted Bool Lia.
From Stdlib Require Import String Ascii DecimalString DecimalN FinFun.
Import ListNotations.

Open Scope Z_scope.

(** ** Exceptions and ways a body can end *)

Inductive exn : Type :=
| ZeroDivisionError
| IOError (video_path : string)
| cv2_error (filename : string).

Inductive outcome : Type :=
| Returned
| Raised (e : exn).

(** ** Binary64 rounding *)

(** The nearest integer, ties to the even one. *)
Definition round_half_even (x : Q) : Z :=
  let f := Qfloor x in
  match (x - inject_Z f ?= 1 # 2)%Q with
  | Lt => f
  | Gt => f + 1
  | Eq => if Z.even f then f else f + 1
  end.

(** The binary exponent [e] of a positive rational: [2^e <= q < 2^(e+1)]. *)
Definition ilog2 (q : Q) : Z :=
  let e0 := Z.log2 (Qnum q) - Z.log2 (Zpos (Qden q)) in
  if Qle_bool (2 ^ e0) q then e0 else e0 - 1.

(** The nearest multiple of [2^k]. *)
Definition grid_round (k : Z) (x : Q) : Q :=
  (inject_Z (round_half_even (x / 2 ^ k)) * 2 ^ k)%Q.

(** A positive rational to 53 significant bits, or to a multiple of
    [2^-1074] in the subnormal range. *)
Definition round_pos (q : Q) : Q :=
  grid_round (Z.max (ilog2 q - 52) (-1074)) q.

Definition round64 (q : Q) : Q :=
  Qred (match (q ?= 0)%Q with
        | Eq => 0
        | Gt => round_pos q
        | Lt => - round_pos (- q)
        end)%Q.

(** ** The streaming selector: [extract_best_frames] *)

Section IntervalSelector.

Variable Frame : Type.
Variable focus_of : Frame -> Q.

(** The local variables of [extract_best_frames]. *)
Record locals : Type := mkLocals {
  best_frame : option Frame;
  best_focus : Q;
  prev_interval : Z;
  frame_index : Z
}.

(** [best_frame = None; best_focus = -1; prev_interval = 0; frame_index = 0] *)
Definition initial : locals := mkLocals None (-1 # 1) 0 0.

(** [time_in_sec = frame_index / fps if fps else 0]: the [int] is converted
    to a float and the quotient is rounded. *)
Definition time_in_sec (fps : Q) (frame_index : Z) : Q :=
  if Qeq_bool fps 0 then 0%Q
  else round64 (round64 (inject_Z frame_index) / fps).

(** [interval_idx = int(time_in_sec // interval_sec)]; floor division by a
    zero float raises [ZeroDivisionError], modelled as [None]. The floor
    is that of the exact quotient of the two floats; [int()] is taken not
    to raise (no infinite or NaN quotient). *)
Definition interval_idx (fps interval_sec : Q) (frame_index : Z) : option Z :=
  if Qeq_bool interval_sec 0 then None
  else Some (Qfloor (time_in_sec fps frame_index / interval_sec)).

(** [focus > best_focus] *)
Definition gtb (x y : Q) : bool := negb (Qle_bool x y).

(** One pass through the body of the [while True] loop with a frame that was
    read: the pairs yielded in this pass and the locals after it. *)
Definition body (idx : Z) (frame : Frame) (st : locals)
  : list (Z * Frame) * locals :=
  let focus := focus_of frame in
  if negb (idx =? prev_interval st) then
    ((match best_frame st with
      | Some b => [(prev_interval st, b)]
      | None => []
      end),
     mkLocals (Some frame) focus idx (frame_index st + 1))
  else if gtb focus (best_focus st) then
    ([], mkLocals (Some frame) focus (prev_interval st) (frame_index st + 1))
  else
    ([], mkLocals (best_frame st) (best_focus st) (prev_interval st)
                  (frame_index st + 1)).

(** The loop, by recursion on the frames still to be read. *)
Fixpoint loop (fps interval_sec : Q) (cap : list Frame) (st : locals)
  : list (Z * Frame) * outcome :=
  match cap with
  | [] =>
      ((match best_frame st with
        | Some b => [(prev_interval st, b)]
        | None => []
        end), Returned)
  | frame :: cap' =>
      match interval_idx fps interval_sec (frame_index st) with
      | None => ([], Raised ZeroDivisionError)
      | Some idx =>
          let '(ys, st') := body idx frame st in
          let '(rest, o) := loop fps interval_sec cap' st' in
          (ys ++ rest, o)
      end
  end.

Definition extract_best_frames (cap : list Frame) (fps interval_sec : Q)
  : list (Z * Frame) * outcome :=
  loop fps interval_sec cap initial.

(** ** Brute force, after the specification

    Frame [i] goes under bucket [floor((i / frame_rate) / interval_length)];
    every non-empty group gives its first frame of maximal score. *)

Definition bucket_of (fps interval_sec : Q) (i : Z) : Z :=
  Qfloor (inject_Z i / fps / interval_sec).

(** The same formula evaluated in floats: both quotients rounded, then
    [math.floor]. *)
Definition bucket_of_float (fps interval_sec : Q) (i : Z) : Z :=
  Qfloor (round64 (round64 (round64 (inject_Z i) / fps) / interval_sec)).

Fixpoint tag_from (bucket : Z -> Z) (i : Z) (cap : list Frame)
  : list (Z * Frame) :=
  match cap with
  | [] => []
  | f :: cap' => (bucket i, f) :: tag_from bucket (i + 1) cap'
  end.

(** Bucket indices in order of first appearance. *)
Fixpoint buckets_seen (tags : list Z) : list Z :=
  match tags with
  | [] => []
  | b :: tags' => b :: filter (fun c => negb (c =? b)) (buckets_seen tags')
  end.

Definition group (b : Z) (tagged : list (Z * Frame)) : list Frame :=
  map snd (filter (fun p => fst p =? b) tagged).

(** [x] scores no more than [y]. *)
Definition score_le (x y : Frame) : bool :=
  Qle_bool (focus_of x) (focus_of y).

Definition is_max (l : list Frame) (f : Frame) : bool :=
  forallb (fun g => score_le g f) l.

Definition argmax (l : list Frame) : option Frame :=
  find (is_max l) l.

Definition per_bucket_argmax (tagged : list (Z * Frame)) : list (Z * Frame) :=
  flat_map (fun b => match argmax (group b tagged) with
                     | Some f => [(b, f)]
                     | None => []
                     end)
           (buckets_seen (map fst tagged)).

Definition brute_force (cap : list Frame) (fps interval_sec : Q)
  : list (Z * Frame) :=
  per_bucket_argmax (tag_from (bucket_of fps interval_sec) 0 cap).

Definition brute_force_float (cap : list Frame) (fps interval_sec : Q)
  : list (Z * Frame) :=
  per_bucket_argmax (tag_from (bucket_of_float fps interval_sec) 0 cap).

End IntervalSelector.

Arguments mkLocals {Frame}.
Arguments best_frame {Frame}.
Arguments best_focus {Frame}.
Arguments prev_interval {Frame}.
Arguments frame_index {Frame}.
Arguments initial {Frame}.
Arguments body {Frame}.
Arguments loop {Frame}.
Arguments extract_best_frames {Frame}.
Arguments tag_from {Frame}.
Arguments group {Frame}.
Arguments score_le {Frame}.
Arguments is_max {Frame}.
Arguments argmax {Frame}.
Arguments per_bucket_argmax {Frame}.
Arguments brute_force {Frame}.
Arguments brute_force_float {Frame}.

(** ** One video: [save_frame], [get_video_properties], [process_video] *)

(** [str.lower] on ASCII letters. *)
Definition lower_ascii (c : ascii) : ascii :=
  let n := nat_of_ascii c in
  if andb (Nat.leb 65 n) (Nat.leb n 90) then ascii_of_nat (n + 32) else c.

Fixpoint lower (s : string) : string :=
  match s with
  | EmptyString => EmptyString
  | String c s' => String (lower_ascii c) (lower s')
  end.

Fixpoint zeros (n : nat) : string :=
  match n with
  | O => EmptyString
  | S n' => String "0" (zeros n')
  end.

(** The format specification [:04d]: sign first, then zeros up to a total
    width of four, then the decimal digits. *)
Definition format_04d (z : Z) : string :=
  let digits := NilZero.string_of_uint (N.to_uint (Z.abs_N z)) in
  let sign := if z <? 0 then "-"%string else EmptyString in
  let width := (String.length sign + String.length digits)%nat in
  (sign ++ zeros (4 - width) ++ digits)%string.

Record Video (Frame : Type) : Type := mkVideo {
  CAP_PROP_FPS : Q;
  CAP_PROP_FRAME_COUNT : Z;
  frames : list Frame
}.

Arguments mkVideo {Frame}.
Arguments CAP_PROP_FPS {Frame}.
Arguments CAP_PROP_FRAME_COUNT {Frame}.
Arguments frames {Frame}.

Inductive message : Type :=
| Warning (e : exn)
| Processing (video_path : string) (fps : Q) (frame_count : Z) (duration : Q)
| Finished (video_path : string).

(** What a job does to the outside, in program order. [cv2_imwrite] records
    a call that came back; [cap_release] the call [cap.release()]. *)
Inductive event (Frame : Type) : Type :=
| os_makedirs (path : string)
| print_line (m : message)
| cv2_imwrite (filename : string) (frame : Frame)
| cap_release (video_path : string).

Arguments os_makedirs {Frame}.
Arguments print_line {Frame}.
Arguments cv2_imwrite {Frame}.
Arguments cap_release {Frame}.

(** What the specification says a scheduler hands back per video. *)
Inductive VideoJobResult : Type :=
| Success (frames_written : nat)
| Failure (reason : string).

(** The Python values a caller of the scheduler can tell apart here. *)
Inductive pyvalue : Type :=
| PyNone
| PyList (results : list VideoJobResult).

Record Namespace : Type := mkNamespace {
  videos : list string;
  interval : Q;
  output : string;
  format : string;
  no_subdir : bool
}.

Section VideoJob.

Variable Frame : Type.
Variable focus_of : Frame -> Q.

(** The collaborators: [cv2.VideoCapture] ([None] when [isOpened()] is
    false), whether [cv2.imwrite] raises on a file name, and the path
    functions [os.path.splitext(os.path.basename(p))[0]] and
    [os.path.join]. *)
Variable VideoCapture : string -> option (Video Frame).
Variable imwrite_raises : string -> bool.
Variable base_name_of : string -> string.
Variable os_path_join : string -> string -> string.

Definition job : Type := (list (event Frame) * outcome)%type.

Definition save_frame (frame : Frame) (path image_format : string) : job :=
  let ext := lower image_format in
  let filename := (path ++ "." ++ ext)%string in
  if imwrite_raises filename then ([], Raised (cv2_error filename))
  else ([cv2_imwrite filename frame], Returned).

Definition get_video_properties (video_path : string)
  : exn + (Video Frame * Q * Z * Q) :=
  match VideoCapture video_path with
  | None => inl (IOError video_path)
  | Some cap =>
      let fps := CAP_PROP_FPS cap in
      let frame_count := CAP_PROP_FRAME_COUNT cap in
      let duration :=
        if Qeq_bool fps 0 then 0%Q
        else round64 (round64 (inject_Z frame_count) / fps) in
      inr (cap, fps, frame_count, duration)
  end.

(** The body of the [for] loop of [process_video], over the pairs the
    generator yields; a raising [save_frame] ends the loop. *)
Fixpoint save_each (save_dir base_name image_format : string)
  (yielded : list (Z * Frame)) : job :=
  match yielded with
  | [] => ([], Returned)
  | (idx, frame) :: yielded' =>
      let save_path :=
        os_path_join save_dir (base_name ++ "_" ++ format_04d idx)%string in
      match save_frame frame save_path image_format with
      | (evs, Raised e) => (evs, Raised e)
      | (evs, Returned) =>
          let '(evs', o) :=
            save_each save_dir base_name image_format yielded' in
          (evs ++ evs', o)
      end
  end.

(** [process_video]. The two [os.makedirs] calls are events and are taken
    to succeed; the exceptions that can end the job here are those of the
    generator and of [save_frame]. *)
Definition process_video (video_path output_folder : string)
  (interval_sec : Q) (image_format : string) (no_subdir : bool) : job :=
  let start := [os_makedirs output_folder] in
  match get_video_properties video_path with
  | inl e => (start ++ [print_line (Warning e)], Returned)
  | inr (cap, fps, frame_count, duration) =>
      let base_name := base_name_of video_path in
      let save_dir :=
        if no_subdir then output_folder
        else os_path_join output_folder base_name in
      let opened :=
        start ++ [print_line (Processing video_path fps frame_count duration);
                  os_makedirs save_dir] in
      let '(yielded, gen) :=
        extract_best_frames focus_of (frames cap) fps interval_sec in
      match save_each save_dir base_name image_format yielded with
      | (evs, Raised e) => (opened ++ evs, Raised e)
      | (evs, Returned) =>
          match gen with
          | Raised e => (opened ++ evs, Raised e)
          | Returned =>
              (opened ++ evs ++ [cap_release video_path;
                                 print_line (Finished video_path)],
               Returned)
          end
      end
  end.

(** ** The scheduler and [main]

    Every [executor.submit] gives one job; the jobs are listed in
    submission order, each with its own events, and an exception raised in
    a job stays in its future. The function has no [return]. *)
Definition process_videos_concurrently (video_paths : list string)
  (output_base_folder : string) (interval_sec : Q) (image_format : string)
  (no_subdir : bool) : list job * pyvalue :=
  (map (fun video_path =>
          process_video video_path output_base_folder interval_sec
                        image_format no_subdir)
       video_paths,
   PyNone).

(** [parser.parse_args()] leaves with status 2 when no video is given or
    the format is not among the choices. *)
Definition parse_args (args : Namespace) : option Namespace :=
  match videos args with
  | [] => None
  | _ :: _ =>
      if orb (String.eqb (format args) "jpg") (String.eqb (format args) "png")
      then Some args else None
  end.

(** [main]: the exit status of the process and the jobs that were run. *)
Definition main (argv : Namespace) : Z * list job :=
  match parse_args argv with
  | None => (2, [])
  | Some args =>
      let '(jobs, _) :=
        process_videos_concurrently (videos args) (output args)
          (interval args) (format args) (no_subdir args) in
      (0, jobs)
  end.

Definition is_write (e : event Frame) : bool :=
  match e with cv2_imwrite _ _ => true | _ => false end.

Definition is_release (e : event Frame) : bool :=
  match e with cap_release _ => true | _ => false end.

(** The files a job wrote and the releases it made. *)
Definition writes (j : job) : list (event Frame) := filter is_write (fst j).

Definition releases (j : job) : list (event Frame) :=
  filter is_release (fst j).

End VideoJob.

Arguments save_frame {Frame}.
Arguments get_video_properties {Frame}.
Arguments save_each {Frame}.
Arguments process_video {Frame}.
Arguments process_videos_concurrently {Frame}.
Arguments main {Frame}.
Arguments is_write {Frame}.
Arguments is_release {Frame}.
Arguments writes {Frame}.
Arguments releases {Frame}.

(** ** Auxiliary notions for the proofs *)

Section Auxiliary.

Variable Frame : Type.
Variable focus_of : Frame -> Q.

(** The bucket the loop computes for a frame index when it does not raise. *)
Definition code_bucket (fps interval_sec : Q) (i : Z) : Z :=
  Qfloor (time_in_sec fps i / interval_sec).

(** The loop on frames that already carry their bucket index. *)
Fixpoint select (tagged : list (Z * Frame)) (best : option Frame)
  (bfocus : Q) (prev : Z) : list (Z * Frame) :=
  match tagged with
  | [] => match best with Some b => [(prev, b)] | None => [] end
  | (idx, frame) :: rest =>
      if negb (idx =? prev) then
        match best with Some b => [(prev, b)] | None => [] end
        ++ select rest (Some frame) (focus_of frame) idx
      else if gtb (focus_of frame) bfocus then
        select rest (Some frame) (focus_of frame) prev
      else select rest best bfocus prev
  end.

(** Equal bucket indices sit next to each other. *)
Fixpoint contiguous (tags : list Z) : Prop :=
  match tags with
  | [] => True
  | b :: tags' =>
      match tags' with
      | [] => True
      | c :: _ => b = c \/ ~ In b tags'
      end /\ contiguous tags'
  end.

(** Bucket [b] received a frame of [cap]. *)
Definition received (cap : list Frame) (fps interval_sec : Q) (b : Z) : Prop :=
  exists i, 0 <= i < Z.of_nat (List.length cap)
            /\ interval_idx fps interval_sec i = Some b.

(** The frames of [cap] with their bucket indices, in arrival order. *)
Definition tagged_frames (cap : list Frame) (fps interval_sec : Q)
  : list (Z * Frame) :=
  tag_from (code_bucket fps interval_sec) 0 cap.

End Auxiliary.

Arguments select {Frame}.
Arguments received {Frame}.
Arguments tagged_frames {Frame}.

(** ** A sample world for concrete runs

    Frames are their own scores. [a.mp4] has two frames at 1 fps, [b.mp4]
    four frames at 2 fps, every other path does not open; no write raises
    unless its file name ends in a bucket the world refuses. *)

Definition sample_capture (video_path : string) : option (Video Z) :=
  if String.eqb video_path "a.mp4" then Some (mkVideo (1 # 1) 2 [1; 2])
  else if String.eqb video_path "b.mp4" then
    Some (mkVideo (2 # 1) 4 [3; 8; 8; 5])
  else None.

Definition sample_base_name (video_path : string) : string :=
  if String.eqb video_path "a.mp4" then "a"%string
  else if String.eqb video_path "b.mp4" then "b"%string
  else video_path.

Definition sample_join (a b : string) : string := (a ++ "/" ++ b)%string.

(** The float that the literal [0.1] denotes. *)
Definition float_tenth : Q := round64 (1 # 10).

Definition never_raises (filename : string) : bool := false.

Definition disk_full_after_first (filename : string) : bool :=
  negb (String.eqb filename "out/b/b_0000.jpg").

Definition sample_args (interval_sec : Q) (paths : list string) : Namespace :=
  mkNamespace paths interval_sec "out" "jpg" false.

(** ** File names *)

(** Reading a bucket index back from its [:04d] rendering: an optional
    sign, then decimal digits. *)
Definition parse_04d (s : string) : option Z :=
  match s with
  | EmptyString => None
  | String a r =>
      if Ascii.eqb a "-" then
        option_map (fun d => - Z.of_N (N.of_uint d))
                   (NilEmpty.uint_of_string r)
      else
        option_map (fun d => Z.of_N (N.of_uint d))
                   (NilEmpty.uint_of_string s)
  end.

(** The file [process_video] asks [save_frame] to write for a bucket:
    [os.path.join(save_dir, f"{base_name}_{interval_idx:04d}")], a dot and
    the lower-cased format. *)
Definition frame_file (os_path_join : string -> string -> string)
  (save_dir base_name image_format : string) (idx : Z) : string :=
  (os_path_join save_dir (base_name ++ "_" ++ format_04d idx)
   ++ "." ++ lower image_format)%string.

(** The names of the files a job wrote, in order. *)
Definition written_files {Frame : Type} (evs : list (event Frame))
  : list string :=
  flat_map (fun e => match e with cv2_imwrite fn _ => [fn] | _ => [] end)
           evs.

(** * Properties *)

(** The scenario of the specification: 93 frames at 30 fps, one-second
    intervals, every frame scoring its own index modulo 7. *)
Example scenario_93 :
  map fst (fst (extract_best_frames (fun i : Z => inject_Z (i mod 7))
                  (map Z.of_nat (seq 0 93)) (30 # 1) 1))
  = [0; 1; 2; 3].
Proof. vm_compute. reflexivity. Qed.

Example format_04d_examples :
  format_04d 7 = "0007"%string /\ format_04d (-1) = "-001"%string
  /\ format_04d 12345 = "12345"%string.
Proof. vm_compute. repeat split. Qed.

(** ** List facts *)

Lemma find_agree {A : Type} (p q : A -> bool) (l : list A) :
  (forall a, p a = q a) -> find p l = find q l.
Proof.
  intros H. induction l as [|a l IH]; simpl; [reflexivity|].
  rewrite H, IH. reflexivity.
Qed.

Lemma find_first {A : Type} (p : A -> bool) (l : list A) (x : A) :
  find p l = Some x ->
  exists pre post, l = pre ++ x :: post /\ p x = true
                   /\ forall y, In y pre -> p y = false.
Proof.
  induction l as [|a l IH]; simpl; [discriminate|].
  destruct (p a) eqn:E.
  - intros [= <-]. exists [], l. repeat split; auto. intros y [].
  - intros H. destruct (IH H) as (pre & post & -> & Hx & Hpre).
    exists (a :: pre), post. repeat split; auto.
    intros y [<- | Hy]; auto.
Qed.

Lemma filter_id {A : Type} (p : A -> bool) (l : list A) :
  (forall a, In a l -> p a = true) -> filter p l = l.
Proof.
  induction l as [|a l IH]; simpl; intros H; [reflexivity|].
  rewrite (H a (or_introl eq_refl)), IH; auto.
Qed.

Lemma filter_nil {A : Type} (p : A -> bool) (l : list A) :
  (forall a, In a l -> p a = false) -> filter p l = [].
Proof.
  induction l as [|a l IH]; simpl; intros H; [reflexivity|].
  rewrite (H a (or_introl eq_refl)), IH; auto.
Qed.

Lemma filter_twice {A : Type} (p : A -> bool) (l : list A) :
  filter p (filter p l) = filter p l.
Proof.
  apply filter_id. intros a Ha. apply filter_In in Ha. tauto.
Qed.

Lemma flat_map_agree {A B : Type} (f g : A -> list B) (l : list A) :
  (forall a, In a l -> f a = g a) -> flat_map f l = flat_map g l.
Proof.
  induction l as [|a l IH]; simpl; intros H; [reflexivity|].
  rewrite (H a (or_introl eq_refl)), IH; auto.
Qed.

(** ** Order facts on scores *)

Section ScoreOrder.

Variable Frame : Type.
Variable focus_of : Frame -> Q.

Lemma leb_refl x : score_le focus_of x x = true.
Proof. apply Qle_bool_iff, Qle_refl. Qed.

Lemma leb_trans x y z :
  score_le focus_of x y = true -> score_le focus_of y z = true ->
  score_le focus_of x z = true.
Proof.
  unfold score_le. rewrite !Qle_bool_iff. intros; eapply Qle_trans; eauto.
Qed.

Lemma leb_total x y :
  score_le focus_of x y = false -> score_le focus_of y x = true.
Proof.
  unfold score_le. intros H. apply Qle_bool_iff.
  destruct (Qlt_le_dec (focus_of y) (focus_of x)) as [Hlt | Hle].
  - apply Qlt_le_weak, Hlt.
  - apply Qle_bool_iff in Hle. congruence.
Qed.

Lemma gtb_true x y : gtb x y = true <-> (y < x)%Q.
Proof.
  unfold gtb. rewrite negb_true_iff. split.
  - intros H. apply Qnot_le_lt. intros Hle.
    apply Qle_bool_iff in Hle. congruence.
  - intros H. destruct (Qle_bool x y) eqn:E; [|reflexivity].
    apply Qle_bool_iff in E. exfalso. eapply Qlt_not_le; eauto.
Qed.

Lemma gtb_false x y : gtb x y = false <-> (x <= y)%Q.
Proof.
  unfold gtb. rewrite negb_false_iff. apply Qle_bool_iff.
Qed.

Lemma is_max_cons a l f :
  is_max focus_of (a :: l) f = score_le focus_of a f && is_max focus_of l f.
Proof. reflexivity. Qed.

Lemma is_max_mono l x y :
  score_le focus_of x y = true -> is_max focus_of l x = true ->
  is_max focus_of l y = true.
Proof.
  unfold is_max. rewrite !forallb_forall. intros Hxy H g Hg.
  apply (leb_trans g x y); [apply H, Hg | exact Hxy].
Qed.

(** The streaming update agrees with the brute-force choice: taking the
    better of the first two candidates first does not change the first
    maximum. *)
Lemma argmax_merge a b g :
  argmax focus_of (a :: b :: g)
  = argmax focus_of ((if gtb (focus_of b) (focus_of a) then b else a) :: g).
Proof.
  unfold argmax. destruct (gtb (focus_of b) (focus_of a)) eqn:E.
  - assert (Hab : score_le focus_of b a = false).
    { unfold gtb in E. apply negb_true_iff in E. exact E. }
    pose proof (leb_total _ _ Hab) as Hba.
    cbn [find]. rewrite !is_max_cons. rewrite Hab, Hba, !leb_refl.
    rewrite ?andb_false_r. cbn [andb].
    destruct (is_max focus_of g b) eqn:Eb; [reflexivity|].
    apply find_agree. intros y. rewrite !is_max_cons.
    destruct (score_le focus_of b y) eqn:Eby.
    + rewrite (leb_trans a b y Hba Eby). reflexivity.
    + rewrite andb_false_r. reflexivity.
  - assert (Hba : score_le focus_of b a = true).
    { unfold gtb in E. apply negb_false_iff in E. exact E. }
    cbn [find]. rewrite !is_max_cons. rewrite Hba, !leb_refl. cbn [andb].
    destruct (is_max focus_of g a) eqn:Ea; [reflexivity|].
    assert (Hb : score_le focus_of a b && is_max focus_of g b = false).
    { destruct (score_le focus_of a b) eqn:Eab; [|reflexivity]. cbn [andb].
      destruct (is_max focus_of g b) eqn:Eb; [|reflexivity].
      rewrite (is_max_mono g b a Hba Eb) in Ea. discriminate. }
    rewrite Hb.
    apply find_agree. intros y. rewrite !is_max_cons.
    destruct (score_le focus_of a y) eqn:Eay; [|reflexivity].
    rewrite (leb_trans b a y Hba Eay). reflexivity.
Qed.

Lemma is_max_false l y :
  is_max focus_of l y = false ->
  exists z, In z l /\ score_le focus_of z y = false.
Proof.
  induction l as [|a l IH]; simpl; [discriminate|].
  destruct (score_le focus_of a y) eqn:E; simpl.
  - intros H. destruct (IH H) as (z & Hz & Hzy). exists z; auto.
  - intros _. exists a; auto.
Qed.

Lemma has_max l :
  l <> [] -> exists m, In m l /\ is_max focus_of l m = true.
Proof.
  induction l as [|a l IH]; [congruence|]. intros _.
  destruct l as [|b l].
  - exists a. split; [left; reflexivity|].
    rewrite is_max_cons, leb_refl. reflexivity.
  - destruct IH as (m & Hm & Hmax); [discriminate|].
    destruct (score_le focus_of a m) eqn:E.
    + exists m. split; [right; exact Hm|].
      rewrite is_max_cons, E. exact Hmax.
    + exists a. split; [left; reflexivity|].
      rewrite is_max_cons, leb_refl. cbn [andb].
      apply (is_max_mono _ m a); auto using leb_total.
Qed.

Lemma argmax_some l : l <> [] -> exists f, argmax focus_of l = Some f.
Proof.
  intros H. destruct (has_max l H) as (m & Hm & Hmax).
  unfold argmax. destruct (find (is_max focus_of l) l) eqn:E; eauto.
  rewrite (find_none _ _ E m Hm) in Hmax. discriminate.
Qed.

Lemma argmax_single a : argmax focus_of [a] = Some a.
Proof.
  unfold argmax. cbn [find]. rewrite is_max_cons, leb_refl. reflexivity.
Qed.

(** What the brute-force choice is: the frame found has a score no
    smaller than any frame of the group and strictly greater than every
    frame before it. *)
Lemma argmax_spec l f :
  argmax focus_of l = Some f ->
  exists pre post,
    l = pre ++ f :: post
    /\ (forall y, In y pre -> (focus_of y < focus_of f)%Q)
    /\ (forall y, In y post -> (focus_of y <= focus_of f)%Q).
Proof.
  intros H. destruct (find_first _ _ _ H) as (pre & post & Hl & Hf & Hpre).
  exists pre, post. split; [exact Hl|].
  assert (Hall : forall y, In y l -> score_le focus_of y f = true).
  { unfold is_max in Hf. rewrite forallb_forall in Hf. exact Hf. }
  split.
  - intros y Hy. destruct (is_max_false _ _ (Hpre y Hy)) as (z & Hz & Hzy).
    apply Qlt_le_trans with (focus_of z).
    + apply Qnot_le_lt. intros Hle. apply Qle_bool_iff in Hle.
      unfold score_le in Hzy. congruence.
    + apply Qle_bool_iff. apply (Hall z Hz).
  - intros y Hy. apply Qle_bool_iff. apply Hall. rewrite Hl.
    apply in_or_app. right. right. exact Hy.
Qed.

End ScoreOrder.

(** ** The brute-force grouping *)

Lemma buckets_seen_In tags b : In b (buckets_seen tags) <-> In b tags.
Proof.
  induction tags as [|a tags IH]; simpl; [tauto|].
  rewrite filter_In, IH, negb_true_iff, Z.eqb_neq.
  destruct (Z.eq_dec a b); intuition congruence.
Qed.

Lemma buckets_seen_NoDup tags : NoDup (buckets_seen tags).
Proof.
  induction tags as [|a tags IH]; simpl; constructor.
  - rewrite filter_In, negb_true_iff, Z.eqb_neq. tauto.
  - apply NoDup_filter, IH.
Qed.

Lemma buckets_seen_fresh p tags :
  ~ In p tags -> buckets_seen (p :: tags) = p :: buckets_seen tags.
Proof.
  intros H. simpl. f_equal. apply filter_id. intros a Ha.
  rewrite buckets_seen_In in Ha. apply negb_true_iff, Z.eqb_neq.
  intros E. apply H. rewrite <- E. exact Ha.
Qed.

Lemma buckets_seen_repeat p tags :
  buckets_seen (p :: p :: tags) = buckets_seen (p :: tags).
Proof.
  simpl. rewrite Z.eqb_refl. simpl. rewrite filter_twice. reflexivity.
Qed.

Section BruteForce.

Variable Frame : Type.
Variable focus_of : Frame -> Q.

Lemma group_hit b (f : Frame) l : group b ((b, f) :: l) = f :: group b l.
Proof. unfold group. simpl. rewrite Z.eqb_refl. reflexivity. Qed.

Lemma group_miss b c (f : Frame) l :
  c <> b -> group b ((c, f) :: l) = group b l.
Proof.
  intros H. unfold group. simpl.
  apply Z.eqb_neq in H. rewrite H. reflexivity.
Qed.

Lemma group_absent b (l : list (Z * Frame)) :
  ~ In b (map fst l) -> group b l = [].
Proof.
  intros H. unfold group. rewrite filter_nil; [reflexivity|].
  intros [c f] Hin. simpl. apply Z.eqb_neq. intros ->.
  apply H. apply in_map_iff. exists (b, f). auto.
Qed.

Lemma group_present b (l : list (Z * Frame)) :
  In b (map fst l) -> group b l <> [].
Proof.
  intros H. apply in_map_iff in H. destruct H as ([c f] & Hc & Hin).
  simpl in Hc. subst c. unfold group.
  assert (Hf : In (b, f) (filter (fun p : Z * Frame => fst p =? b) l)).
  { apply filter_In. split; [exact Hin|]. simpl. apply Z.eqb_refl. }
  destruct (filter _ l); [destruct Hf | discriminate].
Qed.

(** A frame of a bucket not seen so far opens a group of its own. *)
Lemma per_bucket_argmax_fresh p bf (l : list (Z * Frame)) :
  ~ In p (map fst l) ->
  per_bucket_argmax focus_of ((p, bf) :: l)
  = (p, bf) :: per_bucket_argmax focus_of l.
Proof.
  intros H. unfold per_bucket_argmax.
  change (map fst ((p, bf) :: l)) with (p :: map fst l).
  rewrite (buckets_seen_fresh p _ H). cbn [flat_map].
  rewrite group_hit, (group_absent p l H), argmax_single. cbn [app].
  f_equal. apply flat_map_agree. intros b Hb.
  rewrite group_miss; [reflexivity|].
  rewrite buckets_seen_In in Hb. intros E. apply H. rewrite E. exact Hb.
Qed.

(** Two frames at the head of one bucket count as the better of them. *)
Lemma per_bucket_argmax_merge p a b (l : list (Z * Frame)) :
  per_bucket_argmax focus_of ((p, a) :: (p, b) :: l)
  = per_bucket_argmax focus_of
      ((p, if gtb (focus_of b) (focus_of a) then b else a) :: l).
Proof.
  unfold per_bucket_argmax.
  change (map fst ((p, a) :: (p, b) :: l)) with (p :: p :: map fst l).
  rewrite buckets_seen_repeat.
  change (map fst ((p, if gtb (focus_of b) (focus_of a) then b else a) :: l))
    with (p :: map fst l).
  apply flat_map_agree. intros c _.
  destruct (Z.eq_dec p c) as [<- | Hne].
  - rewrite !group_hit, argmax_merge. reflexivity.
  - rewrite !group_miss by exact Hne. reflexivity.
Qed.

(** The streaming selection with an open bucket is the brute force on the
    frames of that bucket seen so far and all frames to come. *)
Lemma select_open (l : list (Z * Frame)) : forall p bf,
  contiguous (p :: map fst l) ->
  select focus_of l (Some bf) (focus_of bf) p
  = per_bucket_argmax focus_of ((p, bf) :: l).
Proof.
  induction l as [|[t f] l IH]; intros p bf Hc.
  - simpl. rewrite per_bucket_argmax_fresh by (intros []). reflexivity.
  - cbn [select]. cbn [map fst] in Hc. destruct Hc as [Hhead Htail].
    destruct (Z.eq_dec t p) as [-> | Hne].
    + rewrite Z.eqb_refl. cbn [negb].
      rewrite per_bucket_argmax_merge.
      destruct (gtb (focus_of f) (focus_of bf)); apply IH; exact Htail.
    + apply Z.eqb_neq in Hne as Hb. rewrite Hb. cbn [negb app].
      rewrite IH by exact Htail.
      rewrite (per_bucket_argmax_fresh p bf ((t, f) :: l)); [reflexivity|].
      destruct Hhead as [-> | Hnot]; [congruence | exact Hnot].
Qed.

End BruteForce.

(** ** Rounding to the nearest integer, ties to even *)

Lemma round_half_even_cases (x : Q) :
  (round_half_even x = Qfloor x /\ (x - inject_Z (Qfloor x) <= 1 # 2)%Q)
  \/ (round_half_even x = Qfloor x + 1
      /\ (1 # 2 <= x - inject_Z (Qfloor x))%Q).
Proof.
  unfold round_half_even.
  destruct (x - inject_Z (Qfloor x) ?= 1 # 2)%Q eqn:E.
  - apply Qeq_alt in E. destruct (Z.even (Qfloor x));
      [left | right]; (split; [reflexivity|]); rewrite E; apply Qle_refl.
  - apply Qlt_alt in E. left. split; [reflexivity|]. apply Qlt_le_weak, E.
  - apply Qgt_alt in E. right. split; [reflexivity|]. apply Qlt_le_weak, E.
Qed.

Lemma round_half_even_up (x : Q) :
  (1 # 2 < x - inject_Z (Qfloor x))%Q -> round_half_even x = Qfloor x + 1.
Proof.
  intros H. unfold round_half_even. apply Qgt_alt in H.
  unfold Qcompare in *. rewrite H. reflexivity.
Qed.

Lemma round_half_even_down (x : Q) :
  (x - inject_Z (Qfloor x) < 1 # 2)%Q -> round_half_even x = Qfloor x.
Proof.
  intros H. unfold round_half_even. apply Qlt_alt in H.
  unfold Qcompare in *. rewrite H. reflexivity.
Qed.

Lemma round_half_even_tie (x : Q) :
  (x - inject_Z (Qfloor x) == 1 # 2)%Q ->
  round_half_even x = if Z.even (Qfloor x) then Qfloor x else Qfloor x + 1.
Proof.
  intros H. unfold round_half_even. apply Qeq_alt in H.
  unfold Qcompare in *. rewrite H. reflexivity.
Qed.

Lemma round_half_even_monotone (x y : Q) :
  (x <= y)%Q -> round_half_even x <= round_half_even y.
Proof.
  intros Hxy. pose proof (Qfloor_resp_le x y Hxy) as Hf.
  destruct (Z.eq_dec (Qfloor x) (Qfloor y)) as [E | Hne].
  - set (rx := (x - inject_Z (Qfloor x))%Q).
    set (ry := (y - inject_Z (Qfloor y))%Q).
    assert (Hr : (rx <= ry)%Q).
    { unfold rx, ry. rewrite E. unfold Qminus.
      apply Qplus_le_compat; [exact Hxy | apply Qle_refl]. }
    destruct (Qcompare_spec ry (1 # 2)) as [Hy | Hy | Hy].
    + destruct (Qcompare_spec rx (1 # 2)) as [Hx | Hx | Hx].
      * rewrite (round_half_even_tie x Hx), (round_half_even_tie y Hy), E.
        lia.
      * rewrite (round_half_even_down x Hx), (round_half_even_tie y Hy), E.
        destruct (Z.even (Qfloor y)); lia.
      * exfalso. apply (Qlt_irrefl rx).
        apply Qle_lt_trans with ry; [exact Hr|]. rewrite Hy. exact Hx.
    + assert (Hx : (rx < 1 # 2)%Q) by (eapply Qle_lt_trans; eauto).
      rewrite (round_half_even_down x Hx), (round_half_even_down y Hy). lia.
    + rewrite (round_half_even_up y Hy).
      destruct (round_half_even_cases x) as [[-> _] | [-> _]]; lia.
  - destruct (round_half_even_cases x) as [[-> _] | [-> _]];
      destruct (round_half_even_cases y) as [[-> _] | [-> _]]; lia.
Qed.

Lemma round_half_even_Z (n : Z) : round_half_even (inject_Z n) = n.
Proof.
  rewrite round_half_even_down; rewrite Qfloor_Z; [reflexivity|].
  unfold Qminus. rewrite Qplus_opp_r. reflexivity.
Qed.

(** ** Powers of two *)

Lemma two_nonzero : ~ (2 == 0)%Q.
Proof. discriminate. Qed.

Lemma pow2_pos (k : Z) : (0 < 2 ^ k)%Q.
Proof. apply Qpower_0_lt. reflexivity. Qed.

Lemma pow2_plus (a b : Z) : (2 ^ (a + b) == 2 ^ a * 2 ^ b)%Q.
Proof. apply Qpower_plus, two_nonzero. Qed.

Lemma pow2_le (a b : Z) : a <= b -> (2 ^ a <= 2 ^ b)%Q.
Proof. intros H. apply Qpower_le_compat_l; [exact H | discriminate]. Qed.

Lemma pow2_lt_inv (a b : Z) : (2 ^ a < 2 ^ b)%Q -> a < b.
Proof. intros H. apply (Qpower_lt_compat_l_inv 2); [exact H | reflexivity]. Qed.

Lemma pow2_Z (j : Z) : 0 <= j -> (2 ^ j == inject_Z (2 ^ j))%Q.
Proof. intros H. symmetry. apply (Zpower_Qpower 2 j H). Qed.

Lemma pow2_div (a b : Z) : (2 ^ a / 2 ^ b == 2 ^ (a - b))%Q.
Proof.
  unfold Qdiv. replace (a - b) with (a + - b) by lia.
  rewrite pow2_plus, Qpower_opp. reflexivity.
Qed.

Lemma Qdiv_le_pos (x y c : Q) : (0 < c)%Q -> (x <= y)%Q -> (x / c <= y / c)%Q.
Proof.
  intros Hc H. unfold Qdiv. apply Qmult_le_compat_r; [exact H|].
  apply Qinv_le_0_compat, Qlt_le_weak, Hc.
Qed.

Lemma Qdiv_le_neg (x y c : Q) : (c < 0)%Q -> (x <= y)%Q -> (y / c <= x / c)%Q.
Proof.
  intros Hc H.
  assert (Hn : (0 < - c)%Q).
  { apply (Qopp_lt_compat c 0) in Hc. exact Hc. }
  pose proof (Qdiv_le_pos x y (- c) Hn H) as Hd.
  apply Qopp_le_compat in Hd.
  assert (Hc0 : ~ c == 0).
  { intros E. rewrite E in Hc. discriminate Hc. }
  assert (E : forall z, - (z / - c) == z / c) by (intros z; field; exact Hc0).
  rewrite !E in Hd. exact Hd.
Qed.

(** ** The binary exponent of a positive rational *)

Lemma ilog2_spec (q : Q) :
  (0 < q)%Q -> (2 ^ ilog2 q <= q)%Q /\ (q < 2 ^ (ilog2 q + 1))%Q.
Proof.
  intros Hq. destruct q as [n d]. unfold ilog2. cbn [Qnum Qden].
  assert (Hn : 0 < n).
  { unfold Qlt in Hq. simpl in Hq. lia. }
  set (a := Z.log2 n). set (b := Z.log2 (Z.pos d)).
  destruct (Z.log2_spec n Hn) as [Ha1 Ha2]. fold a in Ha1, Ha2.
  destruct (Z.log2_spec (Z.pos d) ltac:(lia)) as [Hb1 Hb2].
  fold b in Hb1, Hb2.
  assert (Ha0 : 0 <= a) by apply Z.log2_nonneg.
  assert (Hb0 : 0 <= b) by apply Z.log2_nonneg.
  assert (Hd : (0 < inject_Z (Z.pos d))%Q) by reflexivity.
  assert (Eq : n # d == inject_Z n / inject_Z (Z.pos d)) by apply Qmake_Qdiv.
  assert (Hlow : (2 ^ (a - b - 1) <= n # d)%Q).
  { rewrite Eq. apply Qle_shift_div_l; [exact Hd|].
    apply Qle_trans with (2 ^ (a - b - 1) * 2 ^ (b + 1))%Q.
    - apply Qmult_le_l; [apply pow2_pos|].
      rewrite (pow2_Z (b + 1)) by lia. rewrite <- Zle_Qle.
      unfold Z.succ in Hb2. lia.
    - rewrite <- pow2_plus. replace (a - b - 1 + (b + 1)) with a by lia.
      rewrite (pow2_Z a Ha0). rewrite <- Zle_Qle. exact Ha1. }
  assert (Hup : (n # d < 2 ^ (a - b + 1))%Q).
  { rewrite Eq. apply Qlt_shift_div_r; [exact Hd|].
    apply Qlt_le_trans with (2 ^ (a - b + 1) * 2 ^ b)%Q.
    - rewrite <- pow2_plus. replace (a - b + 1 + b) with (a + 1) by lia.
      rewrite (pow2_Z (a + 1)) by lia. rewrite <- Zlt_Qlt.
      unfold Z.succ in Ha2. exact Ha2.
    - apply Qmult_le_l; [apply pow2_pos|].
      rewrite (pow2_Z b Hb0). rewrite <- Zle_Qle. exact Hb1. }
  destruct (Qle_bool (2 ^ (a - b)) (n # d)) eqn:E.
  - apply Qle_bool_iff in E. split; [exact E | exact Hup].
  - split; [exact Hlow|].
    replace (a - b - 1 + 1) with (a - b) by lia.
    apply Qnot_le_lt. intros H. apply Qle_bool_iff in H. congruence.
Qed.

Lemma ilog2_monotone (x y : Q) :
  (0 < x)%Q -> (x <= y)%Q -> ilog2 x <= ilog2 y.
Proof.
  intros Hx Hxy.
  assert (Hy : (0 < y)%Q) by (eapply Qlt_le_trans; eauto).
  destruct (ilog2_spec x Hx) as [H1 _].
  destruct (ilog2_spec y Hy) as [_ H2].
  assert (H : (2 ^ ilog2 x < 2 ^ (ilog2 y + 1))%Q).
  { eapply Qle_lt_trans; [exact H1|]. eapply Qle_lt_trans; eauto. }
  apply pow2_lt_inv in H. lia.
Qed.

(** ** Rounding on one grid *)

Lemma grid_round_monotone (k : Z) (x y : Q) :
  (x <= y)%Q -> (grid_round k x <= grid_round k y)%Q.
Proof.
  intros H. unfold grid_round.
  apply Qmult_le_compat_r; [|apply Qlt_le_weak, pow2_pos].
  rewrite <- Zle_Qle. apply round_half_even_monotone.
  apply Qdiv_le_pos; [apply pow2_pos | exact H].
Qed.

Lemma grid_round_point (k j : Z) :
  0 <= j -> (grid_round k (2 ^ (k + j)) == 2 ^ (k + j))%Q.
Proof.
  intros Hj. unfold grid_round.
  assert (E : 2 ^ (k + j) / 2 ^ k == inject_Z (2 ^ j)).
  { rewrite pow2_div. replace (k + j - k) with j by lia. apply pow2_Z, Hj. }
  assert (Er : round_half_even (2 ^ (k + j) / 2 ^ k) = 2 ^ j).
  { apply Z.le_antisymm.
    - rewrite <- (round_half_even_Z (2 ^ j)).
      apply round_half_even_monotone. rewrite E. apply Qle_refl.
    - rewrite <- (round_half_even_Z (2 ^ j)) at 1.
      apply round_half_even_monotone. rewrite E. apply Qle_refl. }
  rewrite Er, <- (pow2_Z j Hj), Qmult_comm, <- pow2_plus. reflexivity.
Qed.

Lemma grid_round_nonneg (k : Z) (x : Q) : (0 <= x)%Q -> (0 <= grid_round k x)%Q.
Proof.
  intros H. unfold grid_round.
  apply Qmult_le_0_compat; [|apply Qlt_le_weak, pow2_pos].
  change 0%Q with (inject_Z 0). rewrite <- Zle_Qle.
  rewrite <- (round_half_even_Z 0). apply round_half_even_monotone.
  unfold Qdiv. apply Qmult_le_0_compat; [exact H|].
  apply Qinv_le_0_compat, Qlt_le_weak, pow2_pos.
Qed.

(** ** Rounding to binary64 is monotone *)

Lemma round_pos_monotone (x y : Q) :
  (0 < x)%Q -> (x <= y)%Q -> (round_pos x <= round_pos y)%Q.
Proof.
  intros Hx Hxy.
  assert (Hy : (0 < y)%Q) by (eapply Qlt_le_trans; eauto).
  pose proof (ilog2_monotone x y Hx Hxy) as He.
  destruct (ilog2_spec x Hx) as [_ Hx2].
  destruct (ilog2_spec y Hy) as [Hy1 _].
  unfold round_pos.
  set (ex := ilog2 x) in *. set (ey := ilog2 y) in *.
  set (kx := Z.max (ex - 52) (-1074)). set (ky := Z.max (ey - 52) (-1074)).
  destruct (Z.eq_dec kx ky) as [E | Hne].
  - rewrite E. apply grid_round_monotone, Hxy.
  - assert (Hk : kx < ky) by lia.
    set (p := Z.max (ex + 1) kx).
    apply Qle_trans with (2 ^ p)%Q; [|apply Qle_trans with (2 ^ ey)%Q].
    + replace p with (kx + (p - kx)) by lia.
      rewrite <- (grid_round_point kx (p - kx)) by lia.
      apply grid_round_monotone.
      replace (kx + (p - kx)) with p by lia.
      apply Qle_trans with (2 ^ (ex + 1))%Q; [apply Qlt_le_weak, Hx2|].
      apply pow2_le. lia.
    + apply pow2_le. lia.
    + replace ey with (ky + (ey - ky)) at 1 by lia.
      rewrite <- (grid_round_point ky (ey - ky)) by lia.
      apply grid_round_monotone.
      replace (ky + (ey - ky)) with ey by lia. exact Hy1.
Qed.

Lemma round_pos_nonneg (x : Q) : (0 <= x)%Q -> (0 <= round_pos x)%Q.
Proof. apply grid_round_nonneg. Qed.

Lemma round64_zero (q : Q) : q == 0 -> round64 q = 0%Q.
Proof.
  intros H. unfold round64.
  rewrite (proj1 (Qeq_alt q 0) H). reflexivity.
Qed.

Lemma round64_pos (q : Q) : (0 < q)%Q -> round64 q == round_pos q.
Proof.
  intros H. unfold round64.
  rewrite (proj1 (Qgt_alt q 0) H). apply Qred_correct.
Qed.

Lemma round64_neg (q : Q) : (q < 0)%Q -> round64 q == - round_pos (- q).
Proof.
  intros H. unfold round64.
  rewrite (proj1 (Qlt_alt q 0) H). apply Qred_correct.
Qed.

Lemma round64_sign (q : Q) :
  ((0 <= q)%Q -> (0 <= round64 q)%Q) /\ ((q <= 0)%Q -> (round64 q <= 0)%Q).
Proof.
  destruct (Qcompare_spec q 0) as [E | Hlt | Hgt].
  - rewrite (round64_zero q E). split; intros _; apply Qle_refl.
  - split.
    + intros H. exfalso. apply (Qlt_irrefl q). eapply Qlt_le_trans; eauto.
    + intros _. rewrite (round64_neg q Hlt).
      assert (Hn : (0 <= - q)%Q).
      { apply Qlt_le_weak in Hlt. apply (Qopp_le_compat q 0) in Hlt.
        exact Hlt. }
      apply round_pos_nonneg in Hn. apply Qopp_le_compat in Hn. exact Hn.
  - split.
    + intros _. rewrite (round64_pos q Hgt).
      apply round_pos_nonneg, Qlt_le_weak, Hgt.
    + intros H. exfalso. apply (Qlt_irrefl 0). eapply Qlt_le_trans; eauto.
Qed.

Lemma round64_monotone (x y : Q) :
  (x <= y)%Q -> (round64 x <= round64 y)%Q.
Proof.
  intros Hxy.
  destruct (Qlt_le_dec 0 x) as [Hx | Hx].
  - assert (Hy : (0 < y)%Q) by (apply Qlt_le_trans with x; assumption).
    rewrite (round64_pos x Hx), (round64_pos y Hy).
    apply round_pos_monotone; assumption.
  - destruct (Qlt_le_dec y 0) as [Hy | Hy].
    + assert (Hx' : (x < 0)%Q) by (apply Qle_lt_trans with y; assumption).
      rewrite (round64_neg x Hx'), (round64_neg y Hy).
      apply Qopp_le_compat. apply round_pos_monotone.
      * apply (Qopp_lt_compat y 0) in Hy. exact Hy.
      * apply Qopp_le_compat, Hxy.
    + apply Qle_trans with 0%Q.
      * apply (proj2 (round64_sign x)), Hx.
      * apply (proj1 (round64_sign y)), Hy.
Qed.


(** ** Bucket arithmetic *)

Section Buckets.

Variables fps interval_sec : Q.

Lemma interval_idx_ok i :
  ~ interval_sec == 0 ->
  interval_idx fps interval_sec i = Some (code_bucket fps interval_sec i).
Proof.
  intros H. unfold interval_idx.
  destruct (Qeq_bool interval_sec 0) eqn:E; [|reflexivity].
  apply Qeq_bool_iff in E. contradiction.
Qed.

Lemma interval_idx_zero i :
  interval_sec == 0 -> interval_idx fps interval_sec i = None.
Proof.
  intros H. unfold interval_idx.
  apply Qeq_bool_iff in H. rewrite H. reflexivity.
Qed.

(** Rounding keeps the order of the elapsed times. *)
Lemma time_in_sec_monotone i j :
  i <= j -> (0 <= fps)%Q ->
  (time_in_sec fps i <= time_in_sec fps j)%Q.
Proof.
  intros Hij Hf. unfold time_in_sec.
  destruct (Qeq_bool fps 0) eqn:E; [apply Qle_refl|].
  assert (Hpos : (0 < fps)%Q).
  { apply Qle_lteq in Hf. destruct Hf as [Hf | Hf]; [exact Hf|].
    symmetry in Hf. apply Qeq_bool_iff in Hf. congruence. }
  apply round64_monotone, Qdiv_le_pos; [exact Hpos|].
  apply round64_monotone. rewrite <- Zle_Qle. exact Hij.
Qed.

Lemma time_in_sec_antitone i j :
  i <= j -> (fps <= 0)%Q ->
  (time_in_sec fps j <= time_in_sec fps i)%Q.
Proof.
  intros Hij Hf. unfold time_in_sec.
  destruct (Qeq_bool fps 0) eqn:E; [apply Qle_refl|].
  assert (Hneg : (fps < 0)%Q).
  { apply Qle_lteq in Hf. destruct Hf as [Hf | Hf]; [exact Hf|].
    apply Qeq_bool_iff in Hf. congruence. }
  apply round64_monotone, Qdiv_le_neg; [exact Hneg|].
  apply round64_monotone. rewrite <- Zle_Qle. exact Hij.
Qed.

Lemma time_in_sec_0 : time_in_sec fps 0 = 0%Q.
Proof.
  unfold time_in_sec. destruct (Qeq_bool fps 0); [reflexivity|].
  apply round64_zero. rewrite (round64_zero (inject_Z 0)) by reflexivity.
  unfold Qdiv. ring.
Qed.

Lemma code_bucket_0 : code_bucket fps interval_sec 0 = 0.
Proof.
  unfold code_bucket. rewrite time_in_sec_0.
  assert (E : 0 / interval_sec == inject_Z 0) by (unfold Qdiv; ring).
  rewrite (Qfloor_comp _ _ E). apply Qfloor_Z.
Qed.

Lemma code_bucket_monotone i j :
  i <= j ->
  ((0 <= fps)%Q /\ (0 < interval_sec)%Q)
  \/ ((fps <= 0)%Q /\ (interval_sec < 0)%Q) ->
  code_bucket fps interval_sec i <= code_bucket fps interval_sec j.
Proof.
  intros Hij [[Hf HL] | [Hf HL]]; unfold code_bucket; apply Qfloor_resp_le.
  - apply Qdiv_le_pos; [exact HL|]. apply time_in_sec_monotone; assumption.
  - apply Qdiv_le_neg; [exact HL|]. apply time_in_sec_antitone; assumption.
Qed.

Lemma code_bucket_antitone i j :
  i <= j ->
  ((0 <= fps)%Q /\ (interval_sec < 0)%Q)
  \/ ((fps <= 0)%Q /\ (0 < interval_sec)%Q) ->
  code_bucket fps interval_sec j <= code_bucket fps interval_sec i.
Proof.
  intros Hij [[Hf HL] | [Hf HL]]; unfold code_bucket; apply Qfloor_resp_le.
  - apply Qdiv_le_neg; [exact HL|]. apply time_in_sec_monotone; assumption.
  - apply Qdiv_le_pos; [exact HL|]. apply time_in_sec_antitone; assumption.
Qed.

Lemma code_bucket_zero_interval i :
  interval_sec == 0 -> code_bucket fps interval_sec i = 0.
Proof.
  intros H. unfold code_bucket.
  assert (E : time_in_sec fps i / interval_sec == inject_Z 0).
  { rewrite H. unfold Qdiv, Qinv. simpl. ring. }
  rewrite (Qfloor_comp _ _ E). apply Qfloor_Z.
Qed.

(** Frames of one bucket are consecutive, whatever the signs of the frame
    rate and of the interval. *)
Lemma code_bucket_convex i j m :
  i <= j <= m ->
  code_bucket fps interval_sec i = code_bucket fps interval_sec m ->
  code_bucket fps interval_sec j = code_bucket fps interval_sec i.
Proof.
  intros [Hij Hjm] E.
  destruct (Qcompare_spec interval_sec 0) as [HL | HL | HL].
  - rewrite !code_bucket_zero_interval by exact HL. reflexivity.
  - destruct (Qlt_le_dec fps 0) as [Hf | Hf].
    + apply Qlt_le_weak in Hf.
      pose proof (code_bucket_monotone i j Hij (or_intror (conj Hf HL))).
      pose proof (code_bucket_monotone j m Hjm (or_intror (conj Hf HL))).
      lia.
    + pose proof (code_bucket_antitone i j Hij (or_introl (conj Hf HL))).
      pose proof (code_bucket_antitone j m Hjm (or_introl (conj Hf HL))).
      lia.
  - destruct (Qlt_le_dec fps 0) as [Hf | Hf].
    + apply Qlt_le_weak in Hf.
      pose proof (code_bucket_antitone i j Hij (or_intror (conj Hf HL))).
      pose proof (code_bucket_antitone j m Hjm (or_intror (conj Hf HL))).
      lia.
    + pose proof (code_bucket_monotone i j Hij (or_introl (conj Hf HL))).
      pose proof (code_bucket_monotone j m Hjm (or_introl (conj Hf HL))).
      lia.
Qed.

End Buckets.

Section Tags.

Variable Frame : Type.

Lemma tag_from_In (bucket : Z -> Z) (cap : list Frame) : forall k b,
  In b (map fst (tag_from bucket k cap)) <->
  exists m, k <= m < k + Z.of_nat (List.length cap) /\ bucket m = b.
Proof.
  induction cap as [|f cap IH]; intros k b.
  - simpl. split; [intros [] | intros (m & Hm & _); lia].
  - cbn [tag_from map fst In List.length]. rewrite IH. split.
    + intros [E | (m & Hm & E)].
      * exists k. split; [lia | exact E].
      * exists m. split; [lia | exact E].
    + intros (m & Hm & E). destruct (Z.eq_dec m k) as [-> | Hne].
      * left. exact E.
      * right. exists m. split; [lia | exact E].
Qed.

Lemma tag_from_agree (b1 b2 : Z -> Z) (cap : list Frame) : forall k,
  (forall i, k <= i -> b1 i = b2 i) ->
  tag_from b1 k cap = tag_from b2 k cap.
Proof.
  induction cap as [|f cap IH]; intros k H; simpl; [reflexivity|].
  rewrite (H k) by lia. f_equal. apply IH. intros i Hi. apply H. lia.
Qed.

Lemma tag_from_contiguous (bucket : Z -> Z) (cap : list Frame) : forall k,
  (forall i j m, i <= j <= m -> bucket i = bucket m -> bucket j = bucket i) ->
  contiguous (map fst (tag_from bucket k cap)).
Proof.
  induction cap as [|f cap IH]; intros k Hconv; [exact I|].
  cbn [tag_from map fst contiguous]. split; [|apply IH; exact Hconv].
  destruct cap as [|g cap]; [exact I|].
  change (map fst (tag_from bucket (k + 1) (g :: cap)))
    with (bucket (k + 1) :: map fst (tag_from bucket (k + 1 + 1) cap)).
  destruct (Z.eq_dec (bucket k) (bucket (k + 1))) as [E | Hne];
    [left; exact E | right].
  change (bucket (k + 1) :: map fst (tag_from bucket (k + 1 + 1) cap))
    with (map fst (tag_from bucket (k + 1) (g :: cap))).
  rewrite tag_from_In. intros (m & Hm & E).
  apply Hne. symmetry. apply (Hconv k (k + 1) m); [lia | congruence].
Qed.

Lemma tag_from_sorted (bucket : Z -> Z) (cap : list Frame) : forall k,
  (forall i j, k <= i <= j -> j < k + Z.of_nat (List.length cap) ->
               bucket i <= bucket j) ->
  StronglySorted Z.le (map fst (tag_from bucket k cap)).
Proof.
  induction cap as [|f cap IH]; intros k Hmono; [constructor|].
  cbn [tag_from map fst]. constructor.
  - apply IH. intros i j Hij Hj. apply Hmono; [lia|].
    cbn [List.length]. lia.
  - apply Forall_forall. intros b Hb. apply tag_from_In in Hb.
    destruct Hb as (m & Hm & <-). apply Hmono; [lia|].
    cbn [List.length]. lia.
Qed.

End Tags.

(** ** The loop is the selection on tagged frames *)

Section Loop.

Variable Frame : Type.
Variable focus_of : Frame -> Q.
Variables fps interval_sec : Q.

Lemma loop_select (cap : list Frame) : forall st,
  ~ interval_sec == 0 ->
  loop focus_of fps interval_sec cap st
  = (select focus_of
       (tag_from (code_bucket fps interval_sec) (frame_index st) cap)
       (best_frame st) (best_focus st) (prev_interval st),
     Returned).
Proof.
  induction cap as [|f cap IH]; intros st HL; [reflexivity|].
  cbn [loop tag_from select]. rewrite interval_idx_ok by exact HL.
  unfold body.
  destruct (negb (code_bucket fps interval_sec (frame_index st)
                  =? prev_interval st)).
  - rewrite IH by exact HL. reflexivity.
  - destruct (gtb (focus_of f) (best_focus st));
      rewrite IH by exact HL; reflexivity.
Qed.

Lemma loop_raises f (cap : list Frame) st :
  interval_sec == 0 ->
  loop focus_of fps interval_sec (f :: cap) st = ([], Raised ZeroDivisionError).
Proof.
  intros H. cbn [loop]. rewrite interval_idx_zero by exact H. reflexivity.
Qed.

Lemma tagged_frames_contiguous (cap : list Frame) :
  contiguous (map fst (tagged_frames cap fps interval_sec)).
Proof.
  apply tag_from_contiguous. intros i j m. apply code_bucket_convex.
Qed.

(** With a non-zero interval and scores above the initial [best_focus],
    the generator yields the brute-force result and returns. *)
Lemma extract_brute (cap : list Frame) :
  ~ interval_sec == 0 ->
  (forall f, In f cap -> (-1 < focus_of f)%Q) ->
  extract_best_frames focus_of cap fps interval_sec
  = (per_bucket_argmax focus_of (tagged_frames cap fps interval_sec),
     Returned).
Proof.
  intros HL Hs. unfold extract_best_frames.
  rewrite loop_select by exact HL. f_equal.
  pose proof (tagged_frames_contiguous cap) as Hc.
  unfold tagged_frames in *. cbn [initial frame_index best_frame best_focus
                                  prev_interval].
  destruct cap as [|f cap]; [reflexivity|].
  cbn [tag_from] in *. rewrite code_bucket_0 in *.
  cbn [select]. rewrite Z.eqb_refl. cbn [negb].
  assert (Hf : gtb (focus_of f) (-1 # 1) = true).
  { apply gtb_true. apply Hs. left. reflexivity. }
  rewrite Hf. apply select_open.
  cbn [map fst] in Hc. destruct Hc as [_ Hc].
  cbn [contiguous]. split; [|exact Hc].
  destruct (map fst (tag_from (code_bucket fps interval_sec) (0 + 1) cap))
    as [|t ts] eqn:E; [exact I|].
  cbn [contiguous] in Hc. destruct Hc as [Hhead _].
  destruct (Z.eq_dec 0 t) as [-> | Hne]; [left; reflexivity | right].
  pose proof (tagged_frames_contiguous (f :: cap)) as Hc'.
  unfold tagged_frames in Hc'. cbn [tag_from map fst] in Hc'.
  rewrite code_bucket_0, E in Hc'. cbn [contiguous] in Hc'.
  destruct Hc' as [[E0 | Hnot] _]; [congruence | exact Hnot].
Qed.

End Loop.

(** ** What the brute force yields *)

Section Yielded.

Variable Frame : Type.
Variable focus_of : Frame -> Q.

Lemma per_bucket_argmax_In (l : list (Z * Frame)) b f :
  In (b, f) (per_bucket_argmax focus_of l) <->
  In b (map fst l) /\ argmax focus_of (group b l) = Some f.
Proof.
  unfold per_bucket_argmax. rewrite in_flat_map. split.
  - intros (c & Hc & Hin). rewrite buckets_seen_In in Hc.
    destruct (argmax focus_of (group c l)) as [g|] eqn:E; [|destruct Hin].
    destruct Hin as [[= -> ->] | []]. auto.
  - intros [Hb E]. exists b. rewrite buckets_seen_In. split; [exact Hb|].
    rewrite E. left. reflexivity.
Qed.

Lemma per_bucket_argmax_keys (l : list (Z * Frame)) :
  map fst (per_bucket_argmax focus_of l) = buckets_seen (map fst l).
Proof.
  unfold per_bucket_argmax.
  assert (H : forall bs, (forall b, In b bs -> In b (map fst l)) ->
    map fst (flat_map (fun b => match argmax focus_of (group b l) with
                                | Some f => [(b, f)]
                                | None => []
                                end) bs) = bs).
  { induction bs as [|b bs IH]; intros Hin; [reflexivity|].
    cbn [flat_map]. rewrite map_app, IH by (intros; apply Hin; right; auto).
    destruct (argmax_some Frame focus_of (group b l)) as (f & ->);
      [|reflexivity].
    apply group_present, Hin. left. reflexivity. }
  apply H. intros b. apply buckets_seen_In.
Qed.

Lemma last_cons {A : Type} (a : A) (l : list A) (d : A) :
  last (a :: l) d = last l a.
Proof.
  revert a d. induction l as [|b l IH]; intros a d; [reflexivity|].
  change (last (a :: b :: l) d) with (last (b :: l) d).
  rewrite !IH. reflexivity.
Qed.

(** With a candidate in hand the selection ends with the bucket of the
    last frame. *)
Lemma select_ends (l : list (Z * Frame)) : forall bf bfocus p,
  exists pre f,
    select focus_of l (Some bf) bfocus p
    = pre ++ [(last (map fst l) p, f)].
Proof.
  induction l as [|[t g] l IH]; intros bf bfocus p.
  - exists [], bf. reflexivity.
  - cbn [select map fst]. rewrite last_cons.
    destruct (Z.eq_dec t p) as [-> | Hne].
    + rewrite Z.eqb_refl. cbn [negb].
      destruct (gtb (focus_of g) bfocus); apply IH.
    + apply Z.eqb_neq in Hne. rewrite Hne. cbn [negb].
      destruct (IH g (focus_of g) t) as (pre & f & ->).
      exists ((p, bf) :: pre), f. reflexivity.
Qed.

(** Only open buckets and buckets of frames to come are yielded. *)
Lemma select_keys (l : list (Z * Frame)) : forall best bfocus p b,
  In b (map fst (select focus_of l best bfocus p)) ->
  (b = p /\ best <> None) \/ In b (map fst l).
Proof.
  induction l as [|[t g] l IH]; intros best bfocus p b.
  - simpl. destruct best; simpl; [|tauto].
    intros [<- | []]. left. split; congruence.
  - cbn [select map fst In].
    destruct (negb (t =? p)) eqn:E.
    + rewrite map_app, in_app_iff. intros [H | H].
      * destruct best; simpl in H; [|tauto].
        destruct H as [<- | []]. left. split; congruence.
      * apply IH in H. destruct H as [[-> _] | H]; auto.
    + apply negb_false_iff, Z.eqb_eq in E. subst t.
      destruct (gtb (focus_of g) bfocus); intros H; apply IH in H.
      * destruct H as [[-> _] | H]; auto.
      * destruct H as [[-> Hb] | H]; auto.
Qed.

(** While no frame of bucket 0 beats the initial [best_focus], nothing is
    kept for bucket 0. *)
Lemma select_sentinel (l : list (Z * Frame)) :
  contiguous (0 :: map fst l) ->
  (forall f, In f (group 0 l) -> (focus_of f <= -1)%Q) ->
  ~ In 0 (map fst (select focus_of l None (-1 # 1) 0)).
Proof.
  induction l as [|[t g] l IH]; intros Hc Hs; [intros []|].
  cbn [select map fst] in *. destruct Hc as [Hhead Hc].
  destruct (Z.eq_dec t 0) as [-> | Hne].
  - rewrite Z.eqb_refl. cbn [negb]. rewrite group_hit in Hs.
    assert (Hg : gtb (focus_of g) (-1 # 1) = false).
    { apply gtb_false. apply Hs. left. reflexivity. }
    rewrite Hg. apply IH; [exact Hc|].
    intros f Hf. apply Hs. right. exact Hf.
  - apply Z.eqb_neq in Hne as Hb. rewrite Hb. cbn [negb app].
    intros H. apply select_keys in H.
    destruct Hhead as [E | Hnot]; [congruence|].
    destruct H as [[E _] | H]; [congruence|].
    apply Hnot. right. exact H.
Qed.

End Yielded.

Lemma filter_StronglySorted {A : Type} (R : A -> A -> Prop) (p : A -> bool)
  (l : list A) :
  StronglySorted R l -> StronglySorted R (filter p l).
Proof.
  induction 1 as [|a l Hs IH Hall]; simpl; [constructor|].
  destruct (p a); [|exact IH]. constructor; [exact IH|].
  rewrite Forall_forall in *. intros x Hx. apply filter_In in Hx.
  apply Hall. tauto.
Qed.

Lemma buckets_seen_sorted tags :
  StronglySorted Z.le tags -> StronglySorted Z.lt (buckets_seen tags).
Proof.
  induction 1 as [|a l Hs IH Hall]; simpl; constructor.
  - apply filter_StronglySorted, IH.
  - rewrite Forall_forall in *. intros x Hx. apply filter_In in Hx.
    destruct Hx as [Hx Hne]. rewrite buckets_seen_In in Hx.
    apply negb_true_iff, Z.eqb_neq in Hne.
    specialize (Hall x Hx). lia.
Qed.

(** ** The selector against the brute force *)

Lemma positive_nonzero (q : Q) : (0 < q)%Q -> ~ q == 0.
Proof. intros H E. rewrite E in H. discriminate H. Qed.

Lemma tag_from_agree_range (Frame : Type) (b1 b2 : Z -> Z)
  (cap : list Frame) : forall k,
  (forall i, k <= i < k + Z.of_nat (List.length cap) -> b1 i = b2 i) ->
  tag_from b1 k cap = tag_from b2 k cap.
Proof.
  induction cap as [|f cap IH]; intros k H; simpl; [reflexivity|].
  rewrite (H k) by (cbn [List.length]; lia). f_equal.
  apply IH. intros i Hi. apply H. cbn [List.length]. lia.
Qed.

Lemma code_bucket_rounded fps interval_sec i :
  ~ fps == 0 ->
  code_bucket fps interval_sec i
  = Qfloor (round64 (round64 (inject_Z i) / fps) / interval_sec).
Proof.
  intros H. unfold code_bucket, time_in_sec.
  destruct (Qeq_bool fps 0) eqn:E; [|reflexivity].
  apply Qeq_bool_iff in E. contradiction.
Qed.

(** C1, as the code has it: for a positive frame rate, a positive interval
    and scores above the initial best score, the pairs yielded by
    [extract_best_frames] are the per-bucket argmax when frame [i] is
    grouped under the bucket the code computes for it,
    [int((i / fps) // interval_sec)] with [i / fps] rounded to a float; one
    pair per non-empty group, carrying its first frame of maximal score.
    This is the grouping by [floor((i / fps) / interval_sec)] whenever the
    quotients [i / fps] of the stream are floats as they stand. *)
Theorem extract_best_frames_is_brute_force
  (Frame : Type) (focus_of : Frame -> Q) (cap : list Frame)
  (fps interval_sec : Q) :
  (0 < fps)%Q ->
  (0 < interval_sec)%Q ->
  (forall f, In f cap -> (-1 < focus_of f)%Q) ->
  extract_best_frames focus_of cap fps interval_sec
  = (per_bucket_argmax focus_of
       (tag_from (fun i => Qfloor (round64 (round64 (inject_Z i) / fps)
                                   / interval_sec)) 0 cap),
     Returned)
  /\ ((forall i, 0 <= i < Z.of_nat (List.length cap) ->
                 round64 (round64 (inject_Z i) / fps) == inject_Z i / fps) ->
      extract_best_frames focus_of cap fps interval_sec
      = (brute_force focus_of cap fps interval_sec, Returned)).
Proof.
  intros Hfps HL Hs.
  pose proof (positive_nonzero _ Hfps) as Hf0.
  rewrite extract_brute by auto using positive_nonzero.
  unfold brute_force, tagged_frames. split.
  - f_equal. f_equal. apply tag_from_agree. intros i _.
    apply code_bucket_rounded, Hf0.
  - intros Hexact. f_equal. f_equal. apply tag_from_agree_range.
    intros i Hi. rewrite code_bucket_rounded by exact Hf0.
    unfold bucket_of. apply Qfloor_comp.
    rewrite (Hexact i) by lia. reflexivity.
Qed.

Lemma extract_best_frames_is_brute_force_witness :
  extract_best_frames inject_Z [3; 5; 5; 1; 2; 2; 0] (2 # 1) 1
  = (brute_force inject_Z [3; 5; 5; 1; 2; 2; 0] (2 # 1) 1, Returned).
Proof.
  apply (proj2 (extract_best_frames_is_brute_force
                  Z inject_Z [3; 5; 5; 1; 2; 2; 0] (2 # 1) 1
                  eq_refl eq_refl
                  ltac:(intros f Hf; simpl in Hf;
                        repeat (destruct Hf as [<- | Hf]; [reflexivity|]);
                        destruct Hf))).
  intros i Hi. simpl in Hi.
  assert (H : i = 0 \/ i = 1 \/ i = 2 \/ i = 3 \/ i = 4 \/ i = 5 \/ i = 6)
    by lia.
  repeat (destruct H as [-> | H]; [vm_compute; reflexivity|]).
  subst i. vm_compute. reflexivity.
Defined.

Example brute_force_example :
  brute_force inject_Z [3; 5; 5; 1; 2; 2; 0] (2 # 1) 1
  = [(0, 5); (1, 5); (2, 2); (3, 0)].
Proof. vm_compute. reflexivity. Qed.

(** C1 as stated fails where [i / fps] is rounded. At 30 fps with the
    interval 0.1 (the float), frame 3 is timed at 3 / 30.0, which is the
    float 0.1, and opens bucket 1, while the exact 3 / 30 lies below the
    float 0.1 and belongs to bucket 0. With the formula evaluated in floats
    the buckets part at frame 30: [1.0 // 0.1] is 9 and
    [floor(1.0 / 0.1)] is 10. *)
Lemma rounded_quotient_changes_the_bucket :
  (0 < 30 # 1)%Q /\ (0 < float_tenth)%Q
  /\ extract_best_frames inject_Z [1; 2; 3; 4] (30 # 1) float_tenth
     = ([(0, 3); (1, 4)], Returned)
  /\ brute_force inject_Z [1; 2; 3; 4] (30 # 1) float_tenth = [(0, 4)]
  /\ interval_idx (30 # 1) float_tenth 30 = Some 9
  /\ bucket_of_float (30 # 1) float_tenth 30 = 10
  /\ fst (extract_best_frames inject_Z (map Z.of_nat (seq 0 31)) (30 # 1)
            float_tenth)
     <> brute_force inject_Z (map Z.of_nat (seq 0 31)) (30 # 1) float_tenth
  /\ fst (extract_best_frames inject_Z (map Z.of_nat (seq 0 31)) (30 # 1)
            float_tenth)
     <> brute_force_float inject_Z (map Z.of_nat (seq 0 31)) (30 # 1)
          float_tenth.
Proof.
  split; [reflexivity|]. split; [reflexivity|].
  split; [vm_compute; reflexivity|]. split; [vm_compute; reflexivity|].
  split; [vm_compute; reflexivity|]. split; [vm_compute; reflexivity|].
  split; intros H; vm_compute in H; discriminate H.
Qed.

(** ** A zero frame rate *)

Section ZeroRate.

Variable Frame : Type.
Variable focus_of : Frame -> Q.

Lemma group_constant_tag (cap : list Frame) : forall k,
  group 0 (tag_from (fun _ => 0) k cap) = cap.
Proof.
  induction cap as [|f cap IH]; intros k; [reflexivity|].
  cbn [tag_from]. rewrite group_hit, IH. reflexivity.
Qed.

Lemma buckets_seen_constant_tag (f : Frame) (cap : list Frame) : forall k,
  buckets_seen (map fst (tag_from (fun _ => 0) k (f :: cap))) = [0].
Proof.
  induction cap as [|g cap IH]; intros k; [reflexivity|].
  cbn [tag_from map fst] in *. rewrite buckets_seen_repeat.
  apply (IH (k + 1)).
Qed.

Lemma code_bucket_zero_rate fps interval_sec i :
  fps == 0 -> code_bucket fps interval_sec i = 0.
Proof.
  intros H. unfold code_bucket, time_in_sec.
  apply Qeq_bool_iff in H. rewrite H.
  assert (E : 0 / interval_sec == inject_Z 0) by (unfold Qdiv; ring).
  rewrite (Qfloor_comp _ _ E). apply Qfloor_Z.
Qed.

End ZeroRate.

(** C5, as the code has it: when the frame rate is zero every frame's
    elapsed time is 0 and every frame maps to bucket 0; for a non-empty
    sequence with scores above the initial best score and a non-zero
    interval, exactly one pair is yielded, bucket 0 with the first frame of
    globally maximal score. *)
Theorem zero_fps_collapses_to_bucket_0
  (Frame : Type) (focus_of : Frame -> Q) (cap : list Frame)
  (fps interval_sec : Q) :
  fps == 0 ->
  ~ interval_sec == 0 ->
  cap <> [] ->
  (forall f, In f cap -> (-1 < focus_of f)%Q) ->
  (forall i, time_in_sec fps i = 0%Q
             /\ interval_idx fps interval_sec i = Some 0)
  /\ exists f, argmax focus_of cap = Some f
               /\ extract_best_frames focus_of cap fps interval_sec
                  = ([(0, f)], Returned).
Proof.
  intros Hfps HL Hne Hs. split.
  - intros i. split.
    + unfold time_in_sec. apply Qeq_bool_iff in Hfps. rewrite Hfps.
      reflexivity.
    + rewrite interval_idx_ok by exact HL. f_equal.
      apply code_bucket_zero_rate, Hfps.
  - destruct (argmax_some Frame focus_of cap Hne) as (f & Hf).
    exists f. split; [exact Hf|].
    rewrite extract_brute by assumption. f_equal.
    unfold tagged_frames.
    rewrite (tag_from_agree Frame _ (fun _ => 0) cap 0)
      by (intros; apply code_bucket_zero_rate, Hfps).
    destruct cap as [|g cap]; [congruence|].
    unfold per_bucket_argmax. rewrite buckets_seen_constant_tag.
    cbn [flat_map]. rewrite group_constant_tag, Hf. reflexivity.
Qed.

Lemma zero_fps_collapses_to_bucket_0_witness :
  exists f, argmax inject_Z [4; 9; 9; 2] = Some f
            /\ extract_best_frames inject_Z [4; 9; 9; 2] 0 (1 # 2)
               = ([(0, f)], Returned).
Proof.
  apply (zero_fps_collapses_to_bucket_0 Z inject_Z [4; 9; 9; 2] 0 (1 # 2)).
  - reflexivity.
  - discriminate.
  - discriminate.
  - intros f Hf. simpl in Hf.
    repeat (destruct Hf as [<- | Hf]; [reflexivity|]). destruct Hf.
Defined.

(** C5 as stated fails for a negative frame rate: [if fps] only catches
    zero, so frame 1 at -1 fps falls into bucket -1 and two pairs are
    yielded. *)
Lemma negative_fps_is_not_collapsed :
  (-1 # 1 <= 0)%Q
  /\ extract_best_frames inject_Z [1; 2] (-1 # 1) 1
     = ([(0, 1); (-1, 2)], Returned)
  /\ ~ (exists f, fst (extract_best_frames inject_Z [1; 2] (-1 # 1) 1)
                  = [(0, f)]).
Proof.
  split; [discriminate|]. split; [vm_compute; reflexivity|].
  intros (f & H). vm_compute in H. discriminate H.
Qed.

(** ** One pair per bucket, in increasing order *)

Section PerBucket.

Variable Frame : Type.
Variable focus_of : Frame -> Q.
Variables fps interval_sec : Q.

Lemma received_In (cap : list Frame) b :
  ~ interval_sec == 0 ->
  received cap fps interval_sec b
  <-> In b (map fst (tagged_frames cap fps interval_sec)).
Proof.
  intros HL. unfold received, tagged_frames. rewrite tag_from_In. split.
  - intros (i & Hi & E). rewrite interval_idx_ok in E by exact HL.
    injection E as E. exists i. split; [lia | exact E].
  - intros (i & Hi & E). exists i. split; [lia|].
    rewrite interval_idx_ok by exact HL. congruence.
Qed.

Lemma tagged_frames_sorted (cap : list Frame) :
  (0 < interval_sec)%Q ->
  (forall i j, 0 <= i <= j -> j < Z.of_nat (List.length cap) ->
               (time_in_sec fps i <= time_in_sec fps j)%Q) ->
  StronglySorted Z.le (map fst (tagged_frames cap fps interval_sec)).
Proof.
  intros HL Hmono. apply tag_from_sorted. intros i j Hij Hj.
  unfold code_bucket. apply Qfloor_resp_le. unfold Qdiv.
  apply Qmult_le_compat_r.
  - apply Hmono; lia.
  - apply Qinv_le_0_compat, Qlt_le_weak, HL.
Qed.

Lemma tag_from_last (bucket : Z -> Z) (cap : list Frame) : forall k d,
  cap <> [] ->
  last (map fst (tag_from bucket k cap)) d
  = bucket (k + Z.of_nat (List.length cap) - 1).
Proof.
  induction cap as [|f cap IH]; intros k d Hne; [congruence|].
  cbn [tag_from map fst]. rewrite last_cons.
  destruct cap as [|g cap].
  - simpl. f_equal. lia.
  - rewrite IH by discriminate. f_equal.
    change (List.length (f :: g :: cap)) with (S (List.length (g :: cap))).
    lia.
Qed.

Lemma extract_ends (cap : list Frame) :
  ~ interval_sec == 0 ->
  (forall f, In f cap -> (-1 < focus_of f)%Q) ->
  cap <> [] ->
  exists pre f,
    fst (extract_best_frames focus_of cap fps interval_sec)
    = pre ++ [(code_bucket fps interval_sec
                 (Z.of_nat (List.length cap) - 1), f)].
Proof.
  intros HL Hs Hne. unfold extract_best_frames.
  rewrite loop_select by exact HL. cbn [fst initial frame_index best_frame
                                        best_focus prev_interval].
  pose proof (tag_from_last (code_bucket fps interval_sec) cap 0 0 Hne)
    as Hlast.
  rewrite Z.add_0_l in Hlast. rewrite <- Hlast. clear Hlast.
  destruct cap as [|f cap]; [congruence|].
  cbn [tag_from select map fst]. rewrite code_bucket_0, Z.eqb_refl.
  cbn [negb]. rewrite last_cons.
  assert (Hf : gtb (focus_of f) (-1 # 1) = true).
  { apply gtb_true. apply Hs. left. reflexivity. }
  rewrite Hf. apply select_ends.
Qed.

End PerBucket.

(** C3, as the code has it: when elapsed times do not decrease along the
    frame sequence and the interval is positive (scores above the initial
    best score), [extract_best_frames] yields exactly one pair for every
    bucket index that received a frame, none for any other index, and the
    yielded bucket indices increase strictly. *)
Theorem one_pair_per_bucket_strictly_increasing
  (Frame : Type) (focus_of : Frame -> Q) (cap : list Frame)
  (fps interval_sec : Q) :
  (forall i j, 0 <= i <= j -> j < Z.of_nat (List.length cap) ->
               (time_in_sec fps i <= time_in_sec fps j)%Q) ->
  (0 < interval_sec)%Q ->
  (forall f, In f cap -> (-1 < focus_of f)%Q) ->
  let yielded :=
    map fst (fst (extract_best_frames focus_of cap fps interval_sec)) in
  (forall b, received cap fps interval_sec b ->
             count_occ Z.eq_dec yielded b = 1%nat)
  /\ (forall b, ~ received cap fps interval_sec b ->
                count_occ Z.eq_dec yielded b = 0%nat)
  /\ StronglySorted Z.lt yielded.
Proof.
  intros Hmono HL Hs yielded.
  pose proof (positive_nonzero _ HL) as HL0.
  assert (E : yielded
              = buckets_seen (map fst (tagged_frames cap fps interval_sec))).
  { unfold yielded. rewrite extract_brute by assumption.
    apply per_bucket_argmax_keys. }
  rewrite E. split; [|split].
  - intros b Hb. apply NoDup_count_occ'; [apply buckets_seen_NoDup|].
    rewrite buckets_seen_In. apply received_In; assumption.
  - intros b Hb. apply count_occ_not_In.
    rewrite buckets_seen_In. rewrite <- received_In by assumption. exact Hb.
  - apply buckets_seen_sorted, tagged_frames_sorted; assumption.
Qed.

Lemma one_pair_per_bucket_strictly_increasing_witness :
  let yielded :=
    map fst (fst (extract_best_frames inject_Z [3; 5; 5; 1; 2] (2 # 1) 1)) in
  (forall b, received [3; 5; 5; 1; 2] (2 # 1) 1 b ->
             count_occ Z.eq_dec yielded b = 1%nat)
  /\ (forall b, ~ received [3; 5; 5; 1; 2] (2 # 1) 1 b ->
                count_occ Z.eq_dec yielded b = 0%nat)
  /\ StronglySorted Z.lt yielded.
Proof.
  apply (one_pair_per_bucket_strictly_increasing
           Z inject_Z [3; 5; 5; 1; 2] (2 # 1) 1).
  - intros i j Hij _. apply time_in_sec_monotone; [lia | discriminate].
  - reflexivity.
  - intros f Hf. simpl in Hf.
    repeat (destruct Hf as [<- | Hf]; [reflexivity|]). destruct Hf.
Defined.

(** C3 as stated fails for a negative interval, which the code accepts:
    the elapsed times do not decrease, yet the bucket indices run
    downwards. *)
Lemma negative_interval_yields_decreasing_indices :
  (forall i j, 0 <= i <= j -> j < Z.of_nat (List.length [3; 5; 5; 1; 2]) ->
               (time_in_sec (2 # 1) i <= time_in_sec (2 # 1) j)%Q)
  /\ map fst (fst (extract_best_frames inject_Z [3; 5; 5; 1; 2] (2 # 1)
                     (-1 # 1)))
     = [0; -1; -2]
  /\ ~ StronglySorted Z.lt
        (map fst (fst (extract_best_frames inject_Z [3; 5; 5; 1; 2] (2 # 1)
                         (-1 # 1)))).
Proof.
  split; [|split].
  - intros i j Hij _. apply time_in_sec_monotone; [lia | discriminate].
  - vm_compute. reflexivity.
  - intros H.
    assert (E : map fst (fst (extract_best_frames inject_Z [3; 5; 5; 1; 2]
                                (2 # 1) (-1 # 1))) = [0; -1; -2])
      by (vm_compute; reflexivity).
    rewrite E in H. apply StronglySorted_inv in H. destruct H as [_ H].
    apply Forall_inv in H. lia.
Qed.

(** C4: a stream of zero frames yields nothing and raises nothing; a
    non-empty stream (non-zero interval, scores above the initial best
    score) ends with the pair of the bucket of its last frame, yielded when
    the stream is exhausted: that pair is the last one, no earlier pair
    carries its index, and its frame is the best of that bucket. *)
Theorem final_bucket_is_emitted_once
  (Frame : Type) (focus_of : Frame -> Q) (cap : list Frame)
  (fps interval_sec : Q) :
  extract_best_frames focus_of [] fps interval_sec = ([], Returned)
  /\ (cap <> [] ->
      ~ interval_sec == 0 ->
      (forall f, In f cap -> (-1 < focus_of f)%Q) ->
      exists pre f b,
        interval_idx fps interval_sec (Z.of_nat (List.length cap) - 1)
        = Some b
        /\ extract_best_frames focus_of cap fps interval_sec
           = (pre ++ [(b, f)], Returned)
        /\ ~ In b (map fst pre)
        /\ argmax focus_of (group b (tagged_frames cap fps interval_sec))
           = Some f).
Proof.
  split; [reflexivity|]. intros Hne HL Hs.
  destruct (extract_ends Frame focus_of fps interval_sec cap HL Hs Hne)
    as (pre & f & E).
  exists pre, f, (code_bucket fps interval_sec
                    (Z.of_nat (List.length cap) - 1)).
  rewrite extract_brute in * by assumption. cbn [fst] in E.
  split; [apply interval_idx_ok, HL|]. split; [rewrite E; reflexivity|].
  split.
  - pose proof (buckets_seen_NoDup
                  (map fst (tagged_frames cap fps interval_sec))) as Hnd.
    rewrite <- (per_bucket_argmax_keys Frame focus_of), E, map_app in Hnd.
    apply NoDup_remove_2 in Hnd. rewrite app_nil_r in Hnd. exact Hnd.
  - apply (per_bucket_argmax_In Frame focus_of). rewrite E.
    apply in_or_app. right. left. reflexivity.
Qed.

Lemma final_bucket_is_emitted_once_witness :
  exists pre f b,
    interval_idx (30 # 1) 1 (Z.of_nat (List.length [3; 5; 5; 1; 2]) - 1)
    = Some b
    /\ extract_best_frames inject_Z [3; 5; 5; 1; 2] (30 # 1) 1
       = (pre ++ [(b, f)], Returned)
    /\ ~ In b (map fst pre)
    /\ argmax inject_Z (group b (tagged_frames [3; 5; 5; 1; 2] (30 # 1) 1))
       = Some f.
Proof.
  apply (proj2 (final_bucket_is_emitted_once
                  Z inject_Z [3; 5; 5; 1; 2] (30 # 1) 1)).
  - discriminate.
  - discriminate.
  - intros f Hf. simpl in Hf.
    repeat (destruct Hf as [<- | Hf]; [reflexivity|]). destruct Hf.
Defined.

(** ** Ties and the initial best score *)

(** C2: in every bucket that received a frame (non-zero interval, scores
    above the initial best score) the frame yielded is the earliest of the
    frames of maximal score: every frame of the bucket before it scores
    strictly less, every frame after it scores no more, and it is the only
    frame yielded for the bucket. In the loop body a frame of the open
    bucket whose score is not strictly greater than [best_focus] replaces
    nothing. *)
Theorem ties_keep_the_earlier_frame
  (Frame : Type) (focus_of : Frame -> Q) (cap : list Frame)
  (fps interval_sec : Q) :
  ~ interval_sec == 0 ->
  (forall f, In f cap -> (-1 < focus_of f)%Q) ->
  (forall b, received cap fps interval_sec b ->
     exists pre f post,
       group b (tagged_frames cap fps interval_sec) = pre ++ f :: post
       /\ In (b, f) (fst (extract_best_frames focus_of cap fps interval_sec))
       /\ (forall g,
             In (b, g)
                (fst (extract_best_frames focus_of cap fps interval_sec)) ->
             g = f)
       /\ (forall y, In y pre -> (focus_of y < focus_of f)%Q)
       /\ (forall y, In y post -> (focus_of y <= focus_of f)%Q))
  /\ (forall idx frame st,
        idx = prev_interval st ->
        (focus_of frame <= best_focus st)%Q ->
        best_frame (snd (body focus_of idx frame st)) = best_frame st
        /\ best_focus (snd (body focus_of idx frame st)) = best_focus st).
Proof.
  intros HL Hs. split.
  - intros b Hb. rewrite extract_brute by assumption. cbn [fst].
    apply (received_In Frame) in Hb; [|exact HL].
    destruct (argmax_some Frame focus_of
                (group b (tagged_frames cap fps interval_sec)))
      as (f & Hf); [apply group_present, Hb|].
    destruct (argmax_spec Frame focus_of _ _ Hf)
      as (pre & post & Hg & Hpre & Hpost).
    exists pre, f, post. split; [exact Hg|]. split; [|split; [|split]].
    + apply per_bucket_argmax_In. auto.
    + intros g Hin. apply per_bucket_argmax_In in Hin. destruct Hin as [_ E].
      congruence.
    + exact Hpre.
    + exact Hpost.
  - intros idx frame st -> Hle. unfold body.
    rewrite Z.eqb_refl. cbn [negb].
    apply gtb_false in Hle. rewrite Hle. split; reflexivity.
Qed.

Lemma ties_keep_the_earlier_frame_witness :
  exists pre f post,
    group 0 (tagged_frames [(1%nat, 5); (2%nat, 7); (3%nat, 7); (4%nat, 1)]
                           (1 # 1) (4 # 1))
    = pre ++ f :: post
    /\ In (0, f)
          (fst (extract_best_frames (fun p : nat * Z => inject_Z (snd p))
                  [(1%nat, 5); (2%nat, 7); (3%nat, 7); (4%nat, 1)]
                  (1 # 1) (4 # 1)))
    /\ (forall g,
          In (0, g)
             (fst (extract_best_frames
                     (fun p : nat * Z => inject_Z (snd p))
                     [(1%nat, 5); (2%nat, 7); (3%nat, 7); (4%nat, 1)]
                     (1 # 1) (4 # 1))) ->
          g = f)
    /\ (forall y, In y pre -> (inject_Z (snd y) < inject_Z (snd f))%Q)
    /\ (forall y, In y post -> (inject_Z (snd y) <= inject_Z (snd f))%Q).
Proof.
  apply (proj1 (ties_keep_the_earlier_frame
                  (nat * Z) (fun p => inject_Z (snd p))
                  [(1%nat, 5); (2%nat, 7); (3%nat, 7); (4%nat, 1)]
                  (1 # 1) (4 # 1) ltac:(discriminate)
                  ltac:(intros f Hf; simpl in Hf;
                        repeat (destruct Hf as [<- | Hf]; [reflexivity|]);
                        destruct Hf))).
  exists 2. split; [simpl; lia | reflexivity].
Defined.

(** Of two frames of equal maximal score in one bucket the earlier one is
    yielded. *)
Example tie_example :
  extract_best_frames (fun p : nat * Z => inject_Z (snd p))
    [(1%nat, 5); (2%nat, 7); (3%nat, 7); (4%nat, 1)] (1 # 1) (4 # 1)
  = ([(0, (2%nat, 7))], Returned).
Proof. vm_compute. reflexivity. Qed.

(** C10, as the code has it: with a non-zero interval, a non-empty
    sequence whose scores are all strictly greater than -1 yields at least
    one pair; and since [best_focus] starts at -1, when every frame of
    bucket 0 scores at most -1 no pair is yielded for bucket 0. *)
Theorem initial_best_focus_is_minus_one
  (Frame : Type) (focus_of : Frame -> Q) (cap : list Frame)
  (fps interval_sec : Q) :
  ~ interval_sec == 0 ->
  (cap <> [] ->
   (forall f, In f cap -> (-1 < focus_of f)%Q) ->
   fst (extract_best_frames focus_of cap fps interval_sec) <> [])
  /\ ((forall f, In f (group 0 (tagged_frames cap fps interval_sec)) ->
                 (focus_of f <= -1)%Q) ->
      ~ In 0 (map fst (fst (extract_best_frames focus_of cap fps
                              interval_sec)))).
Proof.
  intros HL. split.
  - intros Hne Hs E.
    destruct (extract_ends Frame focus_of fps interval_sec cap HL Hs Hne)
      as (pre & f & H).
    rewrite E in H. destruct pre; discriminate H.
  - intros Hs. unfold extract_best_frames.
    rewrite loop_select by exact HL.
    cbn [fst initial frame_index best_frame best_focus prev_interval].
    apply select_sentinel; [|exact Hs].
    pose proof (tagged_frames_contiguous Frame fps interval_sec cap) as Hc.
    unfold tagged_frames in Hc.
    destruct cap as [|f cap]; [simpl; auto|].
    cbn [tag_from map fst] in *. rewrite code_bucket_0 in *.
    cbn [contiguous]. cbn [contiguous] in Hc. split; [left; reflexivity|].
    exact Hc.
Qed.

Lemma initial_best_focus_is_minus_one_witness :
  fst (extract_best_frames inject_Z [0; 3; 2] (1 # 1) (2 # 1)) <> []
  /\ ~ In 0 (map fst (fst (extract_best_frames inject_Z [-2; -1; 4]
                             (1 # 1) (2 # 1)))).
Proof.
  split.
  - apply (proj1 (initial_best_focus_is_minus_one
                    Z inject_Z [0; 3; 2] (1 # 1) (2 # 1)
                    ltac:(discriminate))).
    + discriminate.
    + intros f Hf. simpl in Hf.
      repeat (destruct Hf as [<- | Hf]; [reflexivity|]). destruct Hf.
  - apply (proj2 (initial_best_focus_is_minus_one
                    Z inject_Z [-2; -1; 4] (1 # 1) (2 # 1)
                    ltac:(discriminate))).
    intros f Hf. vm_compute in Hf.
    repeat (destruct Hf as [<- | Hf]; [discriminate|]). destruct Hf.
Defined.

(** A first bucket whose frames all score at most -1 is lost. *)
Example lost_first_bucket :
  extract_best_frames inject_Z [-2; -1; 4] (1 # 1) (2 # 1)
  = ([(1, 4)], Returned).
Proof. vm_compute. reflexivity. Qed.

(** C10 as stated fails for a zero interval, which the code accepts: the
    first frame raises [ZeroDivisionError] and nothing is yielded, though
    every score is above -1. *)
Lemma zero_interval_yields_nothing :
  [0; 3; 2] <> []
  /\ (forall f, In f [0; 3; 2] -> (-1 < inject_Z f)%Q)
  /\ extract_best_frames inject_Z [0; 3; 2] (1 # 1) 0
     = ([], Raised ZeroDivisionError)
  /\ fst (extract_best_frames inject_Z [0; 3; 2] (1 # 1) 0) = [].
Proof.
  split; [discriminate|]. split; [|split; reflexivity].
  intros f Hf. simpl in Hf.
  repeat (destruct Hf as [<- | Hf]; [reflexivity|]). destruct Hf.
Qed.

(** * Jobs *)

Example sample_job_b :
  process_video inject_Z sample_capture never_raises sample_base_name
    sample_join "b.mp4" "out" 1 "JPG" false
  = ([os_makedirs "out";
      print_line (Processing "b.mp4" (2 # 1) 4 (2 # 1));
      os_makedirs "out/b";
      cv2_imwrite "out/b/b_0000.jpg" 8;
      cv2_imwrite "out/b/b_0001.jpg" 8;
      cap_release "b.mp4";
      print_line (Finished "b.mp4")],
     Returned).
Proof. vm_compute. reflexivity. Qed.

Section Jobs.

Variable Frame : Type.
Variable focus_of : Frame -> Q.
Variable VideoCapture : string -> option (Video Frame).
Variable imwrite_raises : string -> bool.
Variable base_name_of : string -> string.
Variable os_path_join : string -> string -> string.

(** The [for] loop only writes. *)
Lemma save_each_writes save_dir base_name image_format
  (yielded : list (Z * Frame)) :
  Forall (fun e => is_write e = true)
         (fst (save_each imwrite_raises os_path_join save_dir base_name
                 image_format yielded)).
Proof.
  induction yielded as [|[idx frame] yielded IH]; [constructor|].
  cbn [save_each]. unfold save_frame.
  destruct (imwrite_raises _); [constructor|].
  destruct (save_each imwrite_raises os_path_join save_dir base_name
              image_format yielded) as [evs o].
  cbn [fst] in *. constructor; [reflexivity | exact IH].
Qed.

(** A [for] loop that runs to its end wrote once per yielded pair. *)
Lemma save_each_returned save_dir base_name image_format
  (yielded : list (Z * Frame)) :
  snd (save_each imwrite_raises os_path_join save_dir base_name image_format
         yielded) = Returned ->
  List.length (fst (save_each imwrite_raises os_path_join save_dir base_name
                      image_format yielded))
  = List.length yielded.
Proof.
  induction yielded as [|[idx frame] yielded IH]; [reflexivity|].
  cbn [save_each]. unfold save_frame.
  destruct (imwrite_raises _); [discriminate|].
  destruct (save_each imwrite_raises os_path_join save_dir base_name
              image_format yielded) as [evs o].
  simpl in *. intros H. rewrite (IH H). reflexivity.
Qed.

Lemma filter_writes_only (evs : list (event Frame)) :
  Forall (fun e => is_write e = true) evs ->
  filter is_release evs = [] /\ filter is_write evs = evs.
Proof.
  intros H. split.
  - apply filter_nil. rewrite Forall_forall in H. intros e He.
    specialize (H e He). destruct e; simpl in *; congruence.
  - apply filter_id. rewrite Forall_forall in H. exact H.
Qed.

Lemma process_video_not_opened video_path output_folder interval_sec
  image_format no_subdir :
  VideoCapture video_path = None ->
  process_video focus_of VideoCapture imwrite_raises base_name_of
    os_path_join video_path output_folder interval_sec image_format no_subdir
  = ([os_makedirs output_folder;
      print_line (Warning (IOError video_path))], Returned).
Proof.
  intros H. unfold process_video, get_video_properties.
  rewrite H. reflexivity.
Qed.

(** A job is read off the capture of its own video only. *)
Lemma process_video_local (VideoCapture2 : string -> option (Video Frame))
  video_path output_folder interval_sec image_format no_subdir :
  VideoCapture2 video_path = VideoCapture video_path ->
  process_video focus_of VideoCapture2 imwrite_raises base_name_of
    os_path_join video_path output_folder interval_sec image_format no_subdir
  = process_video focus_of VideoCapture imwrite_raises base_name_of
    os_path_join video_path output_folder interval_sec image_format
      no_subdir.
Proof.
  intros H. unfold process_video, get_video_properties.
  rewrite H. reflexivity.
Qed.

(** The shape of a job on a video that opens. *)
Lemma process_video_opened (video_path output_folder : string)
  (interval_sec : Q) (image_format : string) (no_subdir : bool)
  (cap : Video Frame) :
  VideoCapture video_path = Some cap ->
  let save_dir :=
    if no_subdir then output_folder
    else os_path_join output_folder (base_name_of video_path) in
  let opened : list (event Frame) :=
    [os_makedirs output_folder;
     print_line (Processing video_path (CAP_PROP_FPS cap)
                   (CAP_PROP_FRAME_COUNT cap)
                   (if Qeq_bool (CAP_PROP_FPS cap) 0 then 0%Q
                    else round64 (round64 (inject_Z (CAP_PROP_FRAME_COUNT cap))
                                  / CAP_PROP_FPS cap)));
     os_makedirs save_dir] in
  let gen :=
    extract_best_frames focus_of (frames cap) (CAP_PROP_FPS cap)
      interval_sec in
  let saved :=
    save_each imwrite_raises os_path_join save_dir (base_name_of video_path)
      image_format (fst gen) in
  process_video focus_of VideoCapture imwrite_raises base_name_of
    os_path_join video_path output_folder interval_sec image_format no_subdir
  = match snd saved, snd gen with
    | Raised e, _ => (opened ++ fst saved, Raised e)
    | Returned, Raised e => (opened ++ fst saved, Raised e)
    | Returned, Returned =>
        (opened ++ fst saved ++ [cap_release video_path;
                                 print_line (Finished video_path)],
         Returned)
    end.
Proof.
  intros H save_dir opened gen saved.
  unfold process_video, get_video_properties.
  rewrite H. fold save_dir. fold gen. destruct gen as [yielded g] eqn:Eg.
  unfold saved. cbn [fst snd].
  destruct (save_each imwrite_raises os_path_join save_dir
              (base_name_of video_path) image_format yielded) as [evs o].
  cbn [fst snd]. destruct o; [destruct g|]; reflexivity.
Qed.

End Jobs.

Lemma parse_args_some argv args : parse_args argv = Some args -> args = argv.
Proof.
  unfold parse_args. destruct (videos argv); [discriminate|].
  destruct (_ || _)%bool; [|discriminate]. congruence.
Qed.

Lemma main_parsed (Frame : Type) (focus_of : Frame -> Q)
  (VideoCapture : string -> option (Video Frame))
  (imwrite_raises : string -> bool) (base_name_of : string -> string)
  (os_path_join : string -> string -> string) (argv : Namespace) :
  parse_args argv <> None ->
  main focus_of VideoCapture imwrite_raises base_name_of os_path_join argv
  = (0, map (fun video_path =>
               process_video focus_of VideoCapture imwrite_raises
                 base_name_of os_path_join video_path (output argv)
                 (interval argv) (format argv) (no_subdir argv))
            (videos argv)).
Proof.
  intros H. unfold main. destruct (parse_args argv) as [args|] eqn:E;
    [|congruence].
  apply parse_args_some in E. subst args. reflexivity.
Qed.

(** The scenario of the specification: of two videos one does not open;
    the other still gives all its files and the process exits with 0. *)
Example one_unreadable_video :
  main inject_Z sample_capture never_raises sample_base_name sample_join
       (sample_args 1 ["missing.mp4"; "b.mp4"]%string)
  = (0,
     [([os_makedirs "out";
        print_line (Warning (IOError "missing.mp4"))], Returned);
      ([os_makedirs "out";
        print_line (Processing "b.mp4" (2 # 1) 4 (2 # 1));
        os_makedirs "out/b";
        cv2_imwrite "out/b/b_0000.jpg" 8;
        cv2_imwrite "out/b/b_0001.jpg" 8;
        cap_release "b.mp4";
        print_line (Finished "b.mp4")], Returned)]).
Proof. vm_compute. reflexivity. Qed.

(** ** What the scheduler hands back *)

Lemma writes_not_opened (Frame : Type) (output_folder video_path : string) :
  writes (([os_makedirs output_folder;
            print_line (Warning (IOError video_path))] : list (event Frame),
           Returned)) = [].
Proof. reflexivity. Qed.

Lemma writes_returned (Frame : Type) (focus_of : Frame -> Q)
  (VideoCapture : string -> option (Video Frame))
  (imwrite_raises : string -> bool) (base_name_of : string -> string)
  (os_path_join : string -> string -> string)
  (video_path output_folder : string) (interval_sec : Q)
  (image_format : string) (no_subdir : bool) (cap : Video Frame) :
  let j := process_video focus_of VideoCapture imwrite_raises base_name_of
             os_path_join video_path output_folder interval_sec image_format
             no_subdir in
  VideoCapture video_path = Some cap ->
  snd j = Returned ->
  List.length (writes j)
  = List.length (fst (extract_best_frames focus_of (frames cap)
                        (CAP_PROP_FPS cap) interval_sec))
  /\ releases j = [cap_release video_path].
Proof.
  intros j Hopen. subst j.
  rewrite (process_video_opened Frame focus_of VideoCapture imwrite_raises
             base_name_of os_path_join video_path output_folder interval_sec
             image_format no_subdir cap Hopen).
  set (save_dir := if no_subdir then output_folder
                   else os_path_join output_folder (base_name_of video_path)).
  set (gen := extract_best_frames focus_of (frames cap) (CAP_PROP_FPS cap)
                interval_sec).
  pose proof (save_each_writes Frame imwrite_raises os_path_join save_dir
                (base_name_of video_path) image_format (fst gen)) as Hw.
  pose proof (save_each_returned Frame imwrite_raises os_path_join save_dir
                (base_name_of video_path) image_format (fst gen)) as Hr.
  destruct (save_each imwrite_raises os_path_join save_dir
              (base_name_of video_path) image_format (fst gen))
    as [evs o].
  cbn [fst snd] in *. destruct o; [|discriminate].
  destruct (snd gen); [|discriminate]. intros _.
  destruct (filter_writes_only Frame evs Hw) as [Hrel Hwr].
  unfold writes, releases. cbn [fst].
  rewrite !filter_app, Hrel, Hwr. cbn [filter app].
  rewrite app_nil_r. split; [apply Hr; reflexivity | reflexivity].
Qed.

(** C8, as the code has it: the scheduler starts one [process_video] job
    per input, in input order, and returns [None], not a list of results;
    what a job did shows in its side effects only: no file for a video
    that does not open, one file per yielded pair for a job that returns
    after opening its video. *)
Theorem scheduler_starts_one_job_per_video
  (Frame : Type) (focus_of : Frame -> Q)
  (VideoCapture : string -> option (Video Frame))
  (imwrite_raises : string -> bool) (base_name_of : string -> string)
  (os_path_join : string -> string -> string)
  (video_paths : list string) (output_base_folder : string)
  (interval_sec : Q) (image_format : string) (no_subdir : bool) :
  let job_of video_path :=
    process_video focus_of VideoCapture imwrite_raises base_name_of
      os_path_join video_path output_base_folder interval_sec image_format
      no_subdir in
  let run :=
    process_videos_concurrently focus_of VideoCapture imwrite_raises
      base_name_of os_path_join video_paths output_base_folder interval_sec
      image_format no_subdir in
  snd run = PyNone
  /\ List.length (fst run) = List.length video_paths
  /\ (forall i video_path,
        nth_error video_paths i = Some video_path ->
        nth_error (fst run) i = Some (job_of video_path))
  /\ (forall video_path,
        VideoCapture video_path = None -> writes (job_of video_path) = [])
  /\ (forall video_path cap,
        VideoCapture video_path = Some cap ->
        snd (job_of video_path) = Returned ->
        List.length (writes (job_of video_path))
        = List.length (fst (extract_best_frames focus_of (frames cap)
                              (CAP_PROP_FPS cap) interval_sec))).
Proof.
  intros job_of run. subst run. unfold process_videos_concurrently.
  cbn [fst snd]. split; [reflexivity|]. split; [apply length_map|].
  split; [|split].
  - intros i video_path H. apply map_nth_error with (f := job_of). exact H.
  - intros video_path H. unfold job_of.
    rewrite process_video_not_opened by exact H. reflexivity.
  - intros video_path cap Hopen Hret.
    apply (writes_returned Frame focus_of VideoCapture imwrite_raises
             base_name_of os_path_join video_path output_base_folder
             interval_sec image_format no_subdir cap Hopen Hret).
Qed.

Lemma scheduler_starts_one_job_per_video_witness :
  List.length
    (writes (process_video inject_Z sample_capture never_raises
               sample_base_name sample_join "b.mp4" "out" 1 "jpg" false))
  = List.length (fst (extract_best_frames inject_Z [3; 8; 8; 5] (2 # 1) 1)).
Proof.
  apply (proj2 (proj2 (proj2 (proj2
           (scheduler_starts_one_job_per_video
              Z inject_Z sample_capture never_raises sample_base_name
              sample_join ["missing.mp4"; "b.mp4"]%string "out" 1 "jpg"
              false))))
         "b.mp4"%string (mkVideo (2 # 1) 4 [3; 8; 8; 5]));
    reflexivity.
Defined.

(** C8 as stated fails: the scheduler returns [None], so there is no list
    of per-video results to receive. *)
Lemma scheduler_returns_no_results :
  snd (process_videos_concurrently inject_Z sample_capture never_raises
         sample_base_name sample_join ["missing.mp4"; "b.mp4"]%string "out"
         1 "jpg" false) = PyNone
  /\ ~ (exists results,
          snd (process_videos_concurrently inject_Z sample_capture
                 never_raises sample_base_name sample_join
                 ["missing.mp4"; "b.mp4"]%string "out" 1 "jpg" false)
          = PyList results
          /\ List.length results = 2%nat).
Proof.
  split; [reflexivity|]. intros (results & H & _). discriminate H.
Qed.

(** ** Jobs that raise *)

Lemma job_raises_on_zero_interval (Frame : Type) (focus_of : Frame -> Q)
  (VideoCapture : string -> option (Video Frame))
  (imwrite_raises : string -> bool) (base_name_of : string -> string)
  (os_path_join : string -> string -> string)
  (video_path output_folder : string) (interval_sec : Q)
  (image_format : string) (no_subdir : bool) (cap : Video Frame) :
  let j := process_video focus_of VideoCapture imwrite_raises base_name_of
             os_path_join video_path output_folder interval_sec image_format
             no_subdir in
  VideoCapture video_path = Some cap ->
  frames cap <> [] ->
  interval_sec == 0 ->
  snd j = Raised ZeroDivisionError /\ writes j = [] /\ releases j = [].
Proof.
  intros j Hopen Hne HL. subst j.
  rewrite (process_video_opened Frame focus_of VideoCapture imwrite_raises
             base_name_of os_path_join video_path output_folder interval_sec
             image_format no_subdir cap Hopen).
  unfold extract_best_frames.
  destruct (frames cap) as [|f fs]; [congruence|].
  rewrite loop_raises by exact HL. cbn [fst snd save_each].
  repeat split.
Qed.

(** C6, as the code has it: the interval is not validated. Once the
    arguments parse, [main] starts every job with the interval it was
    given, whatever its sign, and exits with status 0; with a zero interval
    a job whose video opens and has a frame ends with [ZeroDivisionError]
    inside its worker, before any frame is written. *)
Theorem interval_is_not_validated
  (Frame : Type) (focus_of : Frame -> Q)
  (VideoCapture : string -> option (Video Frame))
  (imwrite_raises : string -> bool) (base_name_of : string -> string)
  (os_path_join : string -> string -> string) (argv : Namespace) :
  parse_args argv <> None ->
  let job_of video_path :=
    process_video focus_of VideoCapture imwrite_raises base_name_of
      os_path_join video_path (output argv) (interval argv) (format argv)
      (no_subdir argv) in
  main focus_of VideoCapture imwrite_raises base_name_of os_path_join argv
  = (0, map job_of (videos argv))
  /\ (interval argv == 0 ->
      forall video_path cap,
        VideoCapture video_path = Some cap ->
        frames cap <> [] ->
        snd (job_of video_path) = Raised ZeroDivisionError
        /\ writes (job_of video_path) = []).
Proof.
  intros Hparse job_of. split; [apply main_parsed, Hparse|].
  intros HL video_path cap Hopen Hne.
  destruct (job_raises_on_zero_interval Frame focus_of VideoCapture
              imwrite_raises base_name_of os_path_join video_path
              (output argv) (interval argv) (format argv) (no_subdir argv)
              cap Hopen Hne HL) as (H1 & H2 & _).
  split; assumption.
Qed.

Lemma interval_is_not_validated_witness :
  main inject_Z sample_capture never_raises sample_base_name sample_join
       (sample_args 0 ["a.mp4"]%string)
  = (0, map (fun v =>
               process_video inject_Z sample_capture never_raises
                 sample_base_name sample_join v "out" 0 "jpg" false)
            ["a.mp4"]%string).
Proof.
  apply (proj1 (interval_is_not_validated
                  Z inject_Z sample_capture never_raises sample_base_name
                  sample_join (sample_args 0 ["a.mp4"]%string)
                  ltac:(discriminate))).
Defined.

(** C6 as stated fails: with [--interval -1] nothing is reported, the job
    runs, writes its frames and the process exits with status 0. *)
Lemma negative_interval_is_processed :
  (interval (sample_args (-1 # 1) ["a.mp4"]%string) <= 0)%Q
  /\ main inject_Z sample_capture never_raises sample_base_name sample_join
          (sample_args (-1 # 1) ["a.mp4"]%string)
     = (0,
        [([os_makedirs "out";
           print_line (Processing "a.mp4" (1 # 1) 2 (2 # 1));
           os_makedirs "out/a";
           cv2_imwrite "out/a/a_0000.jpg" 1;
           cv2_imwrite "out/a/a_-001.jpg" 2;
           cap_release "a.mp4";
           print_line (Finished "a.mp4")], Returned)])
  /\ ~ (fst (main inject_Z sample_capture never_raises sample_base_name
               sample_join (sample_args (-1 # 1) ["a.mp4"]%string)) <> 0
        /\ snd (main inject_Z sample_capture never_raises sample_base_name
                  sample_join (sample_args (-1 # 1) ["a.mp4"]%string)) = []).
Proof.
  split; [discriminate|]. split; [vm_compute; reflexivity|].
  intros [H _]. apply H. vm_compute. reflexivity.
Qed.

(** With [--interval 0] the job ends with [ZeroDivisionError] and the
    process still exits with status 0. *)
Example zero_interval_run :
  main inject_Z sample_capture never_raises sample_base_name sample_join
       (sample_args 0 ["a.mp4"]%string)
  = (0,
     [([os_makedirs "out";
        print_line (Processing "a.mp4" (1 # 1) 2 (2 # 1));
        os_makedirs "out/a"], Raised ZeroDivisionError)]).
Proof. vm_compute. reflexivity. Qed.

(** C9: the code releases the capture on normal completion only. Whenever
    [process_video] ends by raising, the capture had been opened and
    [cap.release()] was not called. *)
Theorem cap_release_is_skipped_when_the_job_raises
  (Frame : Type) (focus_of : Frame -> Q)
  (VideoCapture : string -> option (Video Frame))
  (imwrite_raises : string -> bool) (base_name_of : string -> string)
  (os_path_join : string -> string -> string)
  (video_path output_folder : string) (interval_sec : Q)
  (image_format : string) (no_subdir : bool) (e : exn) :
  let j := process_video focus_of VideoCapture imwrite_raises base_name_of
             os_path_join video_path output_folder interval_sec image_format
             no_subdir in
  snd j = Raised e ->
  releases j = [] /\ exists cap, VideoCapture video_path = Some cap.
Proof.
  intros j. subst j.
  destruct (VideoCapture video_path) as [cap|] eqn:Hopen.
  - rewrite (process_video_opened Frame focus_of VideoCapture imwrite_raises
               base_name_of os_path_join video_path output_folder
               interval_sec image_format no_subdir cap Hopen).
    set (save_dir := if no_subdir then output_folder
                     else os_path_join output_folder
                            (base_name_of video_path)).
    set (gen := extract_best_frames focus_of (frames cap) (CAP_PROP_FPS cap)
                  interval_sec).
    pose proof (save_each_writes Frame imwrite_raises os_path_join save_dir
                  (base_name_of video_path) image_format (fst gen)) as Hw.
    destruct (save_each imwrite_raises os_path_join save_dir
                (base_name_of video_path) image_format (fst gen))
      as [evs o].
    cbn [fst snd] in *.
    destruct (filter_writes_only Frame evs Hw) as [Hrel _].
    destruct o; [destruct (snd gen); [discriminate|]|];
      intros _; (split; [|eauto]); unfold releases; cbn [fst];
      rewrite filter_app, Hrel; reflexivity.
  - rewrite process_video_not_opened by exact Hopen. discriminate.
Qed.

Lemma cap_release_is_skipped_when_the_job_raises_witness :
  releases (process_video inject_Z sample_capture never_raises
              sample_base_name sample_join "a.mp4" "out" 0 "jpg" false)
  = [].
Proof.
  apply (cap_release_is_skipped_when_the_job_raises
           Z inject_Z sample_capture never_raises sample_base_name
           sample_join "a.mp4" "out" 0 "jpg" false ZeroDivisionError).
  reflexivity.
Defined.

(** A write that raises ends the job with the capture still open. *)
Example write_failure_run :
  process_video inject_Z sample_capture disk_full_after_first
    sample_base_name sample_join "b.mp4" "out" 1 "jpg" false
  = ([os_makedirs "out";
      print_line (Processing "b.mp4" (2 # 1) 4 (2 # 1));
      os_makedirs "out/b";
      cv2_imwrite "out/b/b_0000.jpg" 8],
     Raised (cv2_error "out/b/b_0001.jpg")).
Proof. vm_compute. reflexivity. Qed.

(** * Further properties of the selector *)

Section Stream.

Variable Frame : Type.
Variable focus_of : Frame -> Q.

(** A yielded pair is the candidate in hand or a frame to come. *)
Lemma select_pairs (l : list (Z * Frame)) : forall best bfocus p b f,
  In (b, f) (select focus_of l best bfocus p) ->
  (best = Some f /\ b = p) \/ In (b, f) l.
Proof.
  induction l as [|[t g] l IH]; intros best bfocus p b f.
  - simpl. destruct best; simpl; [|tauto].
    intros [[= <- <-] | []]. left. split; reflexivity.
  - cbn [select]. destruct (negb (t =? p)) eqn:E.
    + rewrite in_app_iff. intros [H | H].
      * destruct best; simpl in H; [|tauto].
        destruct H as [[= <- <-] | []]. left. split; reflexivity.
      * apply IH in H. destruct H as [[[= <-] ->] | H].
        -- right. left. reflexivity.
        -- right. right. exact H.
    + apply negb_false_iff, Z.eqb_eq in E. subst t.
      destruct (gtb (focus_of g) bfocus); intros H; apply IH in H.
      * destruct H as [[[= <-] ->] | H].
        -- right. left. reflexivity.
        -- right. right. exact H.
      * destruct H as [H | H]; [left; exact H | right; right; exact H].
Qed.

Lemma select_length (l : list (Z * Frame)) : forall best bfocus p,
  (List.length (select focus_of l best bfocus p)
   <= List.length l + match best with Some _ => 1 | None => 0 end)%nat.
Proof.
  induction l as [|[t g] l IH]; intros best bfocus p.
  - simpl. destruct best; simpl; lia.
  - cbn [select List.length]. destruct (negb (t =? p)).
    + rewrite length_app. specialize (IH (Some g) (focus_of g) t).
      destruct best; simpl in *; lia.
    + destruct (gtb (focus_of g) bfocus).
      * specialize (IH (Some g) (focus_of g) p). simpl in IH. lia.
      * specialize (IH best bfocus p). destruct best; lia.
Qed.

(** The pairs yielded before the frames run out do not depend on the
    frames that follow. *)
Lemma select_app (l1 : list (Z * Frame)) : forall best bfocus p,
  exists pre best' bfocus' p',
    select focus_of l1 best bfocus p
    = pre ++ match best' with Some b => [(p', b)] | None => [] end
    /\ forall l2,
         select focus_of (l1 ++ l2) best bfocus p
         = pre ++ select focus_of l2 best' bfocus' p'.
Proof.
  induction l1 as [|[t g] l1 IH]; intros best bfocus p.
  - exists [], best, bfocus, p. split; reflexivity.
  - cbn [select app]. destruct (negb (t =? p)).
    + destruct (IH (Some g) (focus_of g) t) as (pre & b' & f' & p' & E & H).
      exists (match best with Some b => [(p, b)] | None => [] end ++ pre),
             b', f', p'.
      split.
      * rewrite E, app_assoc. reflexivity.
      * intros l2. rewrite H, app_assoc. reflexivity.
    + destruct (gtb (focus_of g) bfocus); apply IH.
Qed.

Lemma tag_from_app (bucket : Z -> Z) (c1 c2 : list Frame) : forall k,
  tag_from bucket k (c1 ++ c2)
  = tag_from bucket k c1
    ++ tag_from bucket (k + Z.of_nat (List.length c1)) c2.
Proof.
  induction c1 as [|f c1 IH]; intros k.
  - simpl. rewrite Z.add_0_r. reflexivity.
  - cbn [app tag_from List.length]. rewrite IH. do 3 f_equal. lia.
Qed.

Lemma tag_from_length (bucket : Z -> Z) (cap : list Frame) : forall k,
  List.length (tag_from bucket k cap) = List.length cap.
Proof.
  induction cap as [|g cap IH]; intros k; simpl; [|rewrite IH]; reflexivity.
Qed.

Lemma tag_from_pairs (bucket : Z -> Z) (cap : list Frame) : forall k b f,
  In (b, f) (tag_from bucket k cap) ->
  exists i, k <= i < k + Z.of_nat (List.length cap)
            /\ nth_error cap (Z.to_nat (i - k)) = Some f
            /\ bucket i = b.
Proof.
  induction cap as [|g cap IH]; intros k b f; [intros []|].
  cbn [tag_from In List.length]. intros [[= <- <-] | H].
  - exists k. split; [lia|]. rewrite Z.sub_diag. split; reflexivity.
  - destruct (IH _ _ _ H) as (i & Hi & Hn & Hb).
    exists i. split; [lia|]. split; [|exact Hb].
    replace (Z.to_nat (i - k)) with (S (Z.to_nat (i - (k + 1)))) by lia.
    exact Hn.
Qed.

Lemma removelast_prefix {A : Type} (pre tail : list A) :
  (List.length tail <= 1)%nat ->
  exists rest, pre = removelast (pre ++ tail) ++ rest.
Proof.
  intros H. destruct tail as [|x [|y tail]]; [| |simpl in H; lia].
  - rewrite app_nil_r. destruct pre as [|a pre] using rev_ind.
    + exists []. reflexivity.
    + exists [a]. rewrite removelast_last. reflexivity.
  - exists []. rewrite removelast_last, app_nil_r. reflexivity.
Qed.

End Stream.

(** X1: every pair the generator yields carries a frame of the stream
    under the bucket index the loop computed for that frame. *)
Theorem yielded_pairs_come_from_the_stream
  (Frame : Type) (focus_of : Frame -> Q) (cap : list Frame)
  (fps interval_sec : Q) (b : Z) (f : Frame) :
  In (b, f) (fst (extract_best_frames focus_of cap fps interval_sec)) ->
  exists i, 0 <= i < Z.of_nat (List.length cap)
            /\ nth_error cap (Z.to_nat i) = Some f
            /\ interval_idx fps interval_sec i = Some b.
Proof.
  unfold extract_best_frames.
  destruct (Qeq_bool interval_sec 0) eqn:E.
  - apply Qeq_bool_iff in E. destruct cap as [|g cap]; [intros []|].
    rewrite loop_raises by exact E. intros [].
  - assert (HL : ~ interval_sec == 0).
    { intros H. apply Qeq_bool_iff in H. congruence. }
    rewrite loop_select by exact HL.
    cbn [fst initial frame_index best_frame best_focus prev_interval].
    intros H. apply select_pairs in H.
    destruct H as [[[=] _] | H].
    apply tag_from_pairs in H. destruct H as (i & Hi & Hn & Hb).
    exists i. split; [lia|]. rewrite Z.sub_0_r in Hn. split; [exact Hn|].
    rewrite interval_idx_ok by exact HL. congruence.
Qed.

Lemma yielded_pairs_come_from_the_stream_witness :
  exists i, 0 <= i < Z.of_nat (List.length [3; 5; 5; 1; 2])
            /\ nth_error [3; 5; 5; 1; 2] (Z.to_nat i) = Some 2
            /\ interval_idx (2 # 1) 1 i = Some 2.
Proof.
  apply (yielded_pairs_come_from_the_stream
           Z inject_Z [3; 5; 5; 1; 2] (2 # 1) 1 2 2).
  vm_compute. right. right. left. reflexivity.
Defined.

Lemma loop_length (Frame : Type) (focus_of : Frame -> Q)
  (fps interval_sec : Q) (cap : list Frame) (st : locals Frame) :
  (List.length (fst (loop focus_of fps interval_sec cap st))
   <= List.length cap
      + match best_frame st with Some _ => 1 | None => 0 end)%nat.
Proof.
  destruct (Qeq_bool interval_sec 0) eqn:E.
  - apply Qeq_bool_iff in E. destruct cap as [|g cap].
    + simpl. destruct (best_frame st); simpl; lia.
    + rewrite loop_raises by exact E. simpl. lia.
  - assert (HL : ~ interval_sec == 0).
    { intros H. apply Qeq_bool_iff in H. congruence. }
    rewrite loop_select by exact HL. cbn [fst].
    pose proof (select_length Frame focus_of
                  (tag_from (code_bucket fps interval_sec)
                     (frame_index st) cap)
                  (best_frame st) (best_focus st) (prev_interval st)) as H.
    rewrite tag_from_length in H. exact H.
Qed.

(** X2: the generator never yields more pairs than it read frames. *)
Theorem no_more_pairs_than_frames
  (Frame : Type) (focus_of : Frame -> Q) (cap : list Frame)
  (fps interval_sec : Q) :
  (List.length (fst (extract_best_frames focus_of cap fps interval_sec))
   <= List.length cap)%nat.
Proof.
  unfold extract_best_frames.
  pose proof (loop_length Frame focus_of fps interval_sec cap initial) as H.
  cbn [initial best_frame] in H. rewrite Nat.add_0_r in H. exact H.
Qed.

(** X3: pairs are yielded as buckets close. Apart from the pair of the
    bucket still open when the frames run out, what is yielded for a stream
    is a prefix of what is yielded for any longer stream. *)
Theorem yielded_pairs_are_final
  (Frame : Type) (focus_of : Frame -> Q) (cap more : list Frame)
  (fps interval_sec : Q) :
  exists rest,
    fst (extract_best_frames focus_of (cap ++ more) fps interval_sec)
    = removelast (fst (extract_best_frames focus_of cap fps interval_sec))
      ++ rest.
Proof.
  unfold extract_best_frames.
  destruct (Qeq_bool interval_sec 0) eqn:E.
  - apply Qeq_bool_iff in E. destruct cap as [|g cap].
    + simpl. eexists. reflexivity.
    + cbn [app]. rewrite !loop_raises by exact E. exists []. reflexivity.
  - assert (HL : ~ interval_sec == 0).
    { intros H. apply Qeq_bool_iff in H. congruence. }
    rewrite !loop_select by exact HL. cbn [fst initial frame_index
                                          best_frame best_focus prev_interval].
    rewrite tag_from_app.
    destruct (select_app Frame focus_of
                (tag_from (code_bucket fps interval_sec) 0 cap)
                None (-1 # 1) 0) as (pre & b' & f' & p' & E1 & E2).
    rewrite E1, E2.
    destruct (removelast_prefix pre
                (match b' with Some b => [(p', b)] | None => [] end))
      as (rest & Hrest); [destruct b'; simpl; lia|].
    eexists. rewrite Hrest at 1. rewrite <- app_assoc. reflexivity.
Qed.

(** * Further properties of the jobs *)

Lemma select_NoDup (Frame : Type) (focus_of : Frame -> Q)
  (l : list (Z * Frame)) : forall best bfocus p,
  contiguous (p :: map fst l) ->
  NoDup (map fst (select focus_of l best bfocus p)).
Proof.
  induction l as [|[t g] l IH]; intros best bfocus p Hc.
  - simpl. destruct best; simpl; repeat constructor. intros [].
  - cbn [select]. cbn [map fst contiguous] in Hc.
    destruct Hc as [Hhead Hc].
    destruct (Z.eq_dec t p) as [-> | Hne].
    + rewrite Z.eqb_refl. cbn [negb].
      destruct (gtb (focus_of g) bfocus); apply IH; exact Hc.
    + apply Z.eqb_neq in Hne as Hb. rewrite Hb. cbn [negb].
      specialize (IH (Some g) (focus_of g) t Hc).
      destruct best as [b|]; [|exact IH].
      cbn [app map fst]. constructor; [|exact IH].
      intros Hin. apply select_keys in Hin.
      destruct Hhead as [E | Hnot]; [congruence|].
      destruct Hin as [[E _] | Hin]; [congruence|].
      apply Hnot. right. exact Hin.
Qed.

Lemma tagged_frames_contiguous_from_0 (Frame : Type) (cap : list Frame)
  (fps interval_sec : Q) :
  contiguous (0 :: map fst (tagged_frames cap fps interval_sec)).
Proof.
  pose proof (tagged_frames_contiguous Frame fps interval_sec cap) as Hc.
  unfold tagged_frames in *. destruct cap as [|f cap]; [simpl; auto|].
  cbn [tag_from map fst] in *. rewrite code_bucket_0 in *.
  cbn [contiguous]. cbn [contiguous] in Hc.
  split; [left; reflexivity | exact Hc].
Qed.

Lemma yielded_indices_NoDup (Frame : Type) (focus_of : Frame -> Q)
  (cap : list Frame) (fps interval_sec : Q) :
  NoDup (map fst (fst (extract_best_frames focus_of cap fps interval_sec))).
Proof.
  unfold extract_best_frames.
  destruct (Qeq_bool interval_sec 0) eqn:E.
  - apply Qeq_bool_iff in E. destruct cap as [|g cap]; [constructor|].
    rewrite loop_raises by exact E. constructor.
  - assert (HL : ~ interval_sec == 0).
    { intros H. apply Qeq_bool_iff in H. congruence. }
    rewrite loop_select by exact HL.
    cbn [fst initial frame_index best_frame best_focus prev_interval].
    apply select_NoDup. apply tagged_frames_contiguous_from_0.
Qed.

(** X7: whatever the frame rate, the interval and the scores, no bucket
    index is yielded twice. *)
Theorem no_bucket_index_is_yielded_twice
  (Frame : Type) (focus_of : Frame -> Q) (cap : list Frame)
  (fps interval_sec : Q) (b : Z) :
  (count_occ Z.eq_dec
     (map fst (fst (extract_best_frames focus_of cap fps interval_sec))) b
   <= 1)%nat.
Proof.
  apply NoDup_count_occ. apply yielded_indices_NoDup.
Qed.

(** ** File names *)

Lemma uint_of_string_zeros (k : nat) (s : string) (d : Decimal.uint) :
  NilEmpty.uint_of_string s = Some d ->
  exists d', NilEmpty.uint_of_string (zeros k ++ s) = Some d'
             /\ N.of_uint d' = N.of_uint d.
Proof.
  intros H. induction k as [|k (d' & E & Hd)].
  - exists d. split; [exact H | reflexivity].
  - exists (Decimal.D0 d'). cbn [zeros append NilEmpty.uint_of_string].
    rewrite E. split; [reflexivity | exact Hd].
Qed.

Lemma uint_of_string_digits (n : N) :
  exists d, NilEmpty.uint_of_string (NilZero.string_of_uint (N.to_uint n))
            = Some d
            /\ N.of_uint d = n.
Proof.
  destruct (N.to_uint n) as [| | | | | | | | | |] eqn:E;
    try (eexists; split;
         [apply NilEmpty.usu | rewrite <- E; apply DecimalN.Unsigned.of_to]).
  exists (Decimal.D0 Decimal.Nil). split; [reflexivity|].
  rewrite <- (DecimalN.Unsigned.of_to n), E. reflexivity.
Qed.

Lemma parse_04d_digits (s : string) (d : Decimal.uint) :
  s <> EmptyString ->
  NilEmpty.uint_of_string s = Some d ->
  parse_04d s = Some (Z.of_N (N.of_uint d)).
Proof.
  destruct s as [|a r]; [congruence|]. intros _ H. unfold parse_04d.
  destruct (Ascii.eqb_spec a "-") as [-> | Hne].
  - cbn [NilEmpty.uint_of_string] in H.
    destruct (NilEmpty.uint_of_string r); discriminate H.
  - rewrite H. reflexivity.
Qed.

Lemma digits_nonempty (n : N) :
  NilZero.string_of_uint (N.to_uint n) <> EmptyString.
Proof.
  intros H. destruct (uint_of_string_digits n) as (d & E & Hd).
  rewrite H in E. injection E as <-. simpl in Hd. subst n.
  discriminate H.
Qed.

Lemma append_nonempty_r (s t : string) :
  t <> EmptyString -> (s ++ t)%string <> EmptyString.
Proof.
  destruct s; simpl; [auto | discriminate].
Qed.

Lemma parse_format_04d (z : Z) : parse_04d (format_04d z) = Some z.
Proof.
  unfold format_04d.
  set (digits := NilZero.string_of_uint (N.to_uint (Z.abs_N z))).
  destruct (uint_of_string_digits (Z.abs_N z)) as (d & E & Hd).
  fold digits in E.
  set (k := (4 - _)%nat). clearbody k.
  destruct (uint_of_string_zeros k digits d E) as (d' & E' & Hd').
  destruct (z <? 0) eqn:Hz.
  - cbn [append]. unfold parse_04d. rewrite Ascii.eqb_refl, E'.
    cbn [option_map]. rewrite Hd', Hd. f_equal.
    apply Z.ltb_lt in Hz. rewrite N2Z.inj_abs_N. lia.
  - cbn [append]. rewrite (parse_04d_digits _ d').
    + rewrite Hd', Hd. f_equal. apply Z.ltb_ge in Hz.
      rewrite N2Z.inj_abs_N. lia.
    + apply append_nonempty_r, digits_nonempty.
    + exact E'.
Qed.

Lemma string_length_append (s t : string) :
  String.length (s ++ t) = (String.length s + String.length t)%nat.
Proof.
  induction s as [|a s IH]; simpl; [|rewrite IH]; reflexivity.
Qed.

Lemma format_04d_length (z : Z) : (4 <= String.length (format_04d z))%nat.
Proof.
  unfold format_04d. rewrite !string_length_append.
  assert (H : forall n, String.length (zeros n) = n).
  { induction n; simpl; congruence. }
  rewrite H. lia.
Qed.

(** X9: the [:04d] rendering of a bucket index has at least four characters
    and reads back as the index; distinct indices have distinct
    renderings. *)
Theorem format_04d_round_trip (a b : Z) :
  (4 <= String.length (format_04d a))%nat
  /\ parse_04d (format_04d a) = Some a
  /\ (a <> b -> format_04d a <> format_04d b).
Proof.
  split; [apply format_04d_length|]. split; [apply parse_format_04d|].
  intros Hne H. apply Hne. pose proof (parse_format_04d a) as Ha.
  rewrite H, parse_format_04d in Ha. congruence.
Qed.

Lemma format_04d_round_trip_witness : format_04d (-12) <> format_04d 12.
Proof.
  apply (proj2 (proj2 (format_04d_round_trip (-12) 12))). discriminate.
Defined.

Lemma append_cancel_l (s t u : string) :
  (s ++ t)%string = (s ++ u)%string -> t = u.
Proof.
  induction s as [|a s IH]; simpl; [auto|]. intros [= H]. auto.
Qed.

Lemma append_cancel_r (t : string) : forall s u : string,
  (s ++ t)%string = (u ++ t)%string -> s = u.
Proof.
  induction s as [|a s IH]; intros u H.
  - destruct u as [|b u]; [reflexivity|].
    apply (f_equal String.length) in H.
    rewrite !string_length_append in H. simpl in H. lia.
  - destruct u as [|b u].
    + apply (f_equal String.length) in H.
      rewrite !string_length_append in H. simpl in H. lia.
    + simpl in H. injection H as -> H. f_equal. apply IH, H.
Qed.

Lemma frame_file_injective (os_path_join : string -> string -> string)
  (save_dir base_name image_format : string) (a b : Z) :
  (forall x y : string,
     os_path_join save_dir (base_name ++ x)%string
     = os_path_join save_dir (base_name ++ y)%string -> x = y) ->
  frame_file os_path_join save_dir base_name image_format a
  = frame_file os_path_join save_dir base_name image_format b ->
  a = b.
Proof.
  intros Hjoin H. unfold frame_file in H.
  apply append_cancel_r, Hjoin, append_cancel_l in H.
  pose proof (parse_format_04d a) as Ha.
  rewrite H, parse_format_04d in Ha. congruence.
Qed.

Section Files.

Variable Frame : Type.
Variable focus_of : Frame -> Q.
Variable VideoCapture : string -> option (Video Frame).
Variable imwrite_raises : string -> bool.
Variable base_name_of : string -> string.
Variable os_path_join : string -> string -> string.

(** The [for] loop writes the files of the first pairs, all of them when
    it runs to its end; when it raises, a write raised. *)
Lemma save_each_events save_dir base_name image_format
  (yielded : list (Z * Frame)) :
  exists k,
    fst (save_each imwrite_raises os_path_join save_dir base_name
           image_format yielded)
    = map (fun p => cv2_imwrite
                      (frame_file os_path_join save_dir base_name
                         image_format (fst p))
                      (snd p))
          (firstn k yielded)
    /\ (snd (save_each imwrite_raises os_path_join save_dir base_name
               image_format yielded) = Returned ->
        firstn k yielded = yielded)
    /\ (forall e,
          snd (save_each imwrite_raises os_path_join save_dir base_name
                 image_format yielded) = Raised e ->
          exists fn, e = cv2_error fn /\ imwrite_raises fn = true).
Proof.
  induction yielded as [|[idx frame] yielded (k & E & Hret & Hraise)].
  - exists 0%nat. simpl. repeat split. discriminate.
  - cbn [save_each]. unfold save_frame.
    fold (frame_file os_path_join save_dir base_name image_format idx).
    destruct (imwrite_raises
                (frame_file os_path_join save_dir base_name image_format idx))
      eqn:Ew.
    + exists 0%nat. cbn [fst snd firstn map].
      split; [reflexivity|]. split; [discriminate|].
      intros e [= <-]. eexists. split; [reflexivity | exact Ew].
    + destruct (save_each imwrite_raises os_path_join save_dir base_name
                  image_format yielded) as [evs o].
      cbn [fst snd] in *. exists (S k). cbn [firstn map fst snd app].
      rewrite E. split; [reflexivity|]. split.
      * intros H. rewrite (Hret H). reflexivity.
      * exact Hraise.
Qed.

Lemma written_files_app (e1 e2 : list (event Frame)) :
  written_files (e1 ++ e2) = written_files e1 ++ written_files e2.
Proof. apply flat_map_app. Qed.

Lemma written_files_map save_dir base_name image_format
  (l : list (Z * Frame)) :
  written_files
    (map (fun p => cv2_imwrite
                     (frame_file os_path_join save_dir base_name
                        image_format (fst p))
                     (snd p)) l)
  = map (frame_file os_path_join save_dir base_name image_format)
        (map fst l).
Proof.
  induction l as [|p l IH]; [reflexivity|].
  cbn [map written_files flat_map app] in *. f_equal. exact IH.
Qed.

End Files.

Lemma extract_outcome (Frame : Type) (focus_of : Frame -> Q)
  (cap : list Frame) (fps interval_sec : Q) :
  snd (extract_best_frames focus_of cap fps interval_sec) = Returned
  \/ (extract_best_frames focus_of cap fps interval_sec
      = ([], Raised ZeroDivisionError)
      /\ interval_sec == 0).
Proof.
  unfold extract_best_frames.
  destruct (Qeq_bool interval_sec 0) eqn:E.
  - apply Qeq_bool_iff in E. destruct cap as [|g cap]; [left; reflexivity|].
    right. rewrite loop_raises by exact E. split; [reflexivity | exact E].
  - left. rewrite loop_select; [reflexivity|].
    intros H. apply Qeq_bool_iff in H. congruence.
Qed.

(** The events of a job on a video that opens: the opening events, the
    writes for the first pairs, and the closing events when it returns. *)
Lemma job_shape (Frame : Type) (focus_of : Frame -> Q)
  (VideoCapture : string -> option (Video Frame))
  (imwrite_raises : string -> bool) (base_name_of : string -> string)
  (os_path_join : string -> string -> string)
  (video_path output_folder : string) (interval_sec : Q)
  (image_format : string) (no_subdir : bool) (cap : Video Frame) :
  let j := process_video focus_of VideoCapture imwrite_raises base_name_of
             os_path_join video_path output_folder interval_sec image_format
             no_subdir in
  let save_dir :=
    if no_subdir then output_folder
    else os_path_join output_folder (base_name_of video_path) in
  let opened : list (event Frame) :=
    [os_makedirs output_folder;
     print_line (Processing video_path (CAP_PROP_FPS cap)
                   (CAP_PROP_FRAME_COUNT cap)
                   (if Qeq_bool (CAP_PROP_FPS cap) 0 then 0%Q
                    else round64 (round64 (inject_Z (CAP_PROP_FRAME_COUNT cap))
                                  / CAP_PROP_FPS cap)));
     os_makedirs save_dir] in
  let yielded :=
    fst (extract_best_frames focus_of (frames cap) (CAP_PROP_FPS cap)
           interval_sec) in
  let write (p : Z * Frame) :=
    cv2_imwrite (frame_file os_path_join save_dir (base_name_of video_path)
                   image_format (fst p)) (snd p) in
  VideoCapture video_path = Some cap ->
  exists k tail,
    fst j = opened ++ map write (firstn k yielded) ++ tail
    /\ ((snd j = Returned
         /\ firstn k yielded = yielded
         /\ tail = [cap_release video_path;
                    print_line (Finished video_path)])
        \/ (tail = []
            /\ exists e,
                 snd j = Raised e
                 /\ ((e = ZeroDivisionError /\ interval_sec == 0
                      /\ yielded = [])
                     \/ exists fn, e = cv2_error fn
                                   /\ imwrite_raises fn = true))).
Proof.
  intros j save_dir opened yielded write Hopen. subst j.
  rewrite (process_video_opened Frame focus_of VideoCapture imwrite_raises
             base_name_of os_path_join video_path output_folder interval_sec
             image_format no_subdir cap Hopen).
  fold save_dir. fold opened. fold yielded.
  destruct (save_each_events Frame imwrite_raises os_path_join save_dir
              (base_name_of video_path) image_format yielded)
    as (k & E & Hret & Hraise).
  fold write in E.
  destruct (save_each imwrite_raises os_path_join save_dir
              (base_name_of video_path) image_format yielded) as [evs o].
  cbn [fst snd] in *. subst evs.
  destruct o as [|e].
  - destruct (extract_outcome Frame focus_of (frames cap) (CAP_PROP_FPS cap)
                interval_sec) as [Hg | [Hg HL]].
    + rewrite Hg. exists k. eexists. split; [reflexivity|].
      left. split; [reflexivity|]. split; [apply Hret|]; reflexivity.
    + assert (Hy : yielded = []) by (unfold yielded; rewrite Hg; reflexivity).
      rewrite Hg. cbn [snd]. exists k, [].
      split; [rewrite app_nil_r; reflexivity|].
      right. split; [reflexivity|]. exists ZeroDivisionError.
      split; [reflexivity|]. left. auto.
  - exists k, []. split; [rewrite app_nil_r; reflexivity|].
    right. split; [reflexivity|].
    exists e. split; [reflexivity|]. right. apply Hraise. reflexivity.
Qed.

(** C7: a video that fails to open makes [process_video] print a warning
    and return with no frame file written. In a run of [main] that has such
    a video among its arguments the process exits with status 0 and every
    video gets its own job, at its own position: the failing one the
    warning, and any video that opens its full output, one file per pair
    its frames yield, then the release of its capture and the completion
    line (as long as nothing raises in that job: the interval is not zero
    and no write raises). *)
Theorem open_failure_is_a_warning
  (Frame : Type) (focus_of : Frame -> Q)
  (VideoCapture : string -> option (Video Frame))
  (imwrite_raises : string -> bool) (base_name_of : string -> string)
  (os_path_join : string -> string -> string) (video_path : string) :
  VideoCapture video_path = None ->
  (forall output_folder interval_sec image_format no_subdir,
     let j := process_video focus_of VideoCapture imwrite_raises base_name_of
                os_path_join video_path output_folder interval_sec
                image_format no_subdir in
     j = ([os_makedirs output_folder;
           print_line (Warning (IOError video_path))], Returned)
     /\ writes j = [])
  /\ (forall argv,
        In video_path (videos argv) ->
        parse_args argv <> None ->
        let jobs :=
          snd (main focus_of VideoCapture imwrite_raises base_name_of
                 os_path_join argv) in
        fst (main focus_of VideoCapture imwrite_raises base_name_of
               os_path_join argv) = 0
        /\ List.length jobs = List.length (videos argv)
        /\ (forall i other,
              nth_error (videos argv) i = Some other ->
              nth_error jobs i
              = Some (process_video focus_of VideoCapture imwrite_raises
                        base_name_of os_path_join other (output argv)
                        (interval argv) (format argv) (no_subdir argv)))
        /\ (forall i other cap,
              nth_error (videos argv) i = Some other ->
              VideoCapture other = Some cap ->
              ~ interval argv == 0 ->
              (forall fn, imwrite_raises fn = false) ->
              let save_dir :=
                if no_subdir argv then output argv
                else os_path_join (output argv) (base_name_of other) in
              nth_error jobs i
              = Some
                  ([os_makedirs (output argv);
                    print_line
                      (Processing other (CAP_PROP_FPS cap)
                         (CAP_PROP_FRAME_COUNT cap)
                         (if Qeq_bool (CAP_PROP_FPS cap) 0 then 0%Q
                          else round64
                                 (round64 (inject_Z (CAP_PROP_FRAME_COUNT cap))
                                  / CAP_PROP_FPS cap)));
                    os_makedirs save_dir]
                   ++ map (fun p =>
                             cv2_imwrite
                               (frame_file os_path_join save_dir
                                  (base_name_of other) (format argv) (fst p))
                               (snd p))
                          (fst (extract_best_frames focus_of (frames cap)
                                  (CAP_PROP_FPS cap) (interval argv)))
                   ++ [cap_release other; print_line (Finished other)],
                   Returned))).
Proof.
  intros Hopen. split.
  - intros output_folder interval_sec image_format ns j. subst j.
    rewrite process_video_not_opened by exact Hopen. split; reflexivity.
  - intros argv _ Hparse jobs. subst jobs.
    rewrite main_parsed by exact Hparse. cbn [fst snd].
    split; [reflexivity|]. split; [apply length_map|].
    assert (Hnth : forall i other,
              nth_error (videos argv) i = Some other ->
              nth_error
                (map (fun v =>
                        process_video focus_of VideoCapture imwrite_raises
                          base_name_of os_path_join v (output argv)
                          (interval argv) (format argv) (no_subdir argv))
                     (videos argv)) i
              = Some (process_video focus_of VideoCapture imwrite_raises
                        base_name_of os_path_join other (output argv)
                        (interval argv) (format argv) (no_subdir argv))).
    { intros i other H. rewrite nth_error_map, H. reflexivity. }
    split; [exact Hnth|].
    intros i other cap Hi Hcap HL Hw.
    set (save_dir := if no_subdir argv then output argv
                     else os_path_join (output argv) (base_name_of other)).
    rewrite (Hnth i other Hi). f_equal.
    destruct (job_shape Frame focus_of VideoCapture imwrite_raises
                base_name_of os_path_join other (output argv) (interval argv)
                (format argv) (no_subdir argv) cap Hcap)
      as (k & tail & E & H).
    fold save_dir in E.
    destruct H as [(Hr & Hk & ->) | (_ & e & _ & [(_ & H0 & _) | H])].
    + rewrite Hk in E. rewrite <- E, <- Hr. apply surjective_pairing.
    + contradiction.
    + destruct H as (fn & _ & Hfn). rewrite Hw in Hfn. discriminate.
Qed.

Lemma open_failure_is_a_warning_witness :
  nth_error
    (snd (main inject_Z sample_capture never_raises sample_base_name
            sample_join (sample_args 1 ["missing.mp4"; "b.mp4"]%string)))
    1
  = Some
      ([os_makedirs "out";
        print_line
          (Processing "b.mp4" (2 # 1) 4
             (if Qeq_bool (2 # 1) 0 then 0%Q
              else round64 (round64 (inject_Z 4) / (2 # 1))));
        os_makedirs (sample_join "out" (sample_base_name "b.mp4"))]
       ++ map (fun p =>
                 cv2_imwrite
                   (frame_file sample_join
                      (sample_join "out" (sample_base_name "b.mp4"))
                      (sample_base_name "b.mp4") "jpg" (fst p))
                   (snd p))
              (fst (extract_best_frames inject_Z [3; 8; 8; 5] (2 # 1) 1))
       ++ [cap_release "b.mp4"; print_line (Finished "b.mp4")],
       Returned).
Proof.
  apply (proj2 (proj2 (proj2
           (proj2 (open_failure_is_a_warning
                     Z inject_Z sample_capture never_raises
                     sample_base_name sample_join "missing.mp4" eq_refl)
                  (sample_args 1 ["missing.mp4"; "b.mp4"]%string)
                  (or_introl eq_refl) ltac:(discriminate))))
         1%nat "b.mp4"%string (mkVideo (2 # 1) 4 [3; 8; 8; 5])).
  - reflexivity.
  - reflexivity.
  - discriminate.
  - reflexivity.
Defined.

(** X10: a job that returns after opening its video has created the output
    folder, printed the start line, created the save folder, written one
    file per yielded pair, in yield order, each named after its bucket
    index and holding the frame of its pair, then released the capture and
    printed the completion line. *)
Theorem completed_job_writes_one_file_per_pair
  (Frame : Type) (focus_of : Frame -> Q)
  (VideoCapture : string -> option (Video Frame))
  (imwrite_raises : string -> bool) (base_name_of : string -> string)
  (os_path_join : string -> string -> string)
  (video_path output_folder : string) (interval_sec : Q)
  (image_format : string) (no_subdir : bool) (cap : Video Frame) :
  let j := process_video focus_of VideoCapture imwrite_raises base_name_of
             os_path_join video_path output_folder interval_sec image_format
             no_subdir in
  let save_dir :=
    if no_subdir then output_folder
    else os_path_join output_folder (base_name_of video_path) in
  VideoCapture video_path = Some cap ->
  snd j = Returned ->
  fst j
  = [os_makedirs output_folder;
     print_line (Processing video_path (CAP_PROP_FPS cap)
                   (CAP_PROP_FRAME_COUNT cap)
                   (if Qeq_bool (CAP_PROP_FPS cap) 0 then 0%Q
                    else round64 (round64 (inject_Z (CAP_PROP_FRAME_COUNT cap))
                                  / CAP_PROP_FPS cap)));
     os_makedirs save_dir]
    ++ map (fun p => cv2_imwrite
                       (frame_file os_path_join save_dir
                          (base_name_of video_path) image_format (fst p))
                       (snd p))
           (fst (extract_best_frames focus_of (frames cap) (CAP_PROP_FPS cap)
                   interval_sec))
    ++ [cap_release video_path; print_line (Finished video_path)].
Proof.
  intros j save_dir Hopen Hret.
  destruct (job_shape Frame focus_of VideoCapture imwrite_raises base_name_of
              os_path_join video_path output_folder interval_sec image_format
              no_subdir cap Hopen) as (k & tail & E & H).
  fold j in E, H. fold save_dir in E.
  destruct H as [(_ & Hk & ->) | (_ & e & He & _)]; [|congruence].
  rewrite E, Hk. reflexivity.
Qed.

Lemma completed_job_writes_one_file_per_pair_witness :
  fst (process_video inject_Z sample_capture never_raises sample_base_name
         sample_join "b.mp4" "out" (1 # 2) "png" true)
  = [os_makedirs "out";
     print_line (Processing "b.mp4" (2 # 1) 4
                   (if Qeq_bool (2 # 1) 0 then 0%Q
                    else round64 (round64 (inject_Z 4) / (2 # 1))));
     os_makedirs "out"]
    ++ map (fun p => cv2_imwrite
                       (frame_file sample_join "out" (sample_base_name "b.mp4")
                          "png" (fst p))
                       (snd p))
           (fst (extract_best_frames inject_Z [3; 8; 8; 5] (2 # 1) (1 # 2)))
    ++ [cap_release "b.mp4"; print_line (Finished "b.mp4")].
Proof.
  apply (completed_job_writes_one_file_per_pair
           Z inject_Z sample_capture never_raises sample_base_name
           sample_join "b.mp4" "out" (1 # 2) "png" true
           (mkVideo (2 # 1) 4 [3; 8; 8; 5]));
    reflexivity.
Defined.

Lemma NoDup_firstn {A : Type} (k : nat) (l : list A) :
  NoDup l -> NoDup (firstn k l).
Proof.
  intros H. rewrite <- (firstn_skipn k l) in H.
  apply NoDup_app_remove_r in H. exact H.
Qed.

(** X12: a job never writes more files than its video has frames. *)
Theorem no_more_files_than_frames
  (Frame : Type) (focus_of : Frame -> Q)
  (VideoCapture : string -> option (Video Frame))
  (imwrite_raises : string -> bool) (base_name_of : string -> string)
  (os_path_join : string -> string -> string)
  (video_path output_folder : string) (interval_sec : Q)
  (image_format : string) (no_subdir : bool) (cap : Video Frame) :
  VideoCapture video_path = Some cap ->
  (List.length
     (written_files
        (fst (process_video focus_of VideoCapture imwrite_raises base_name_of
                os_path_join video_path output_folder interval_sec
                image_format no_subdir)))
   <= List.length (frames cap))%nat.
Proof.
  intros Hopen.
  destruct (job_shape Frame focus_of VideoCapture imwrite_raises base_name_of
              os_path_join video_path output_folder interval_sec image_format
              no_subdir cap Hopen) as (k & tail & E & H).
  rewrite E, !written_files_app, written_files_map.
  assert (Ht : written_files tail = []).
  { destruct H as [(_ & _ & ->) | (-> & _)]; reflexivity. }
  rewrite Ht, app_nil_r. cbn [written_files flat_map app List.length].
  rewrite !length_map, length_firstn.
  pose proof (loop_length Frame focus_of (CAP_PROP_FPS cap) interval_sec
                (frames cap) initial) as Hl.
  cbn [initial best_frame] in Hl. unfold extract_best_frames. lia.
Qed.

Lemma no_more_files_than_frames_witness :
  (List.length
     (written_files
        (fst (process_video inject_Z sample_capture never_raises
                sample_base_name sample_join "b.mp4" "out" (1 # 4) "jpg"
                false)))
   <= List.length [3; 8; 8; 5])%nat.
Proof.
  apply (no_more_files_than_frames
           Z inject_Z sample_capture never_raises sample_base_name
           sample_join "b.mp4" "out" (1 # 4) "jpg" false
           (mkVideo (2 # 1) 4 [3; 8; 8; 5])).
  reflexivity.
Defined.

(** X13: a job never writes the same file twice, provided joining its save
    folder with names that start with its base name gives different paths
    for different names. *)
Theorem job_never_overwrites_its_own_files
  (Frame : Type) (focus_of : Frame -> Q)
  (VideoCapture : string -> option (Video Frame))
  (imwrite_raises : string -> bool) (base_name_of : string -> string)
  (os_path_join : string -> string -> string)
  (video_path output_folder : string) (interval_sec : Q)
  (image_format : string) (no_subdir : bool) :
  (forall x y : string,
     os_path_join
       (if no_subdir then output_folder
        else os_path_join output_folder (base_name_of video_path))
       (base_name_of video_path ++ x)%string
     = os_path_join
         (if no_subdir then output_folder
          else os_path_join output_folder (base_name_of video_path))
         (base_name_of video_path ++ y)%string ->
     x = y) ->
  NoDup (written_files
           (fst (process_video focus_of VideoCapture imwrite_raises
                   base_name_of os_path_join video_path output_folder
                   interval_sec image_format no_subdir))).
Proof.
  intros Hjoin.
  destruct (VideoCapture video_path) as [cap|] eqn:Hopen.
  - destruct (job_shape Frame focus_of VideoCapture imwrite_raises
                base_name_of os_path_join video_path output_folder
                interval_sec image_format no_subdir cap Hopen)
      as (k & tail & E & H).
    rewrite E, !written_files_app, written_files_map.
    assert (Ht : written_files tail = []).
    { destruct H as [(_ & _ & ->) | (-> & _)]; reflexivity. }
    rewrite Ht, app_nil_r. cbn [written_files flat_map app].
    apply Injective_map_NoDup.
    + intros a b. apply frame_file_injective. exact Hjoin.
    + rewrite <- firstn_map. apply NoDup_firstn, yielded_indices_NoDup.
  - rewrite process_video_not_opened by exact Hopen. constructor.
Qed.

Lemma job_never_overwrites_its_own_files_witness :
  NoDup (written_files
           (fst (process_video inject_Z sample_capture never_raises
                   sample_base_name sample_join "b.mp4" "out" (1 # 2) "jpg"
                   true))).
Proof.
  apply (job_never_overwrites_its_own_files
           Z inject_Z sample_capture never_raises sample_base_name
           sample_join "b.mp4" "out" (1 # 2) "jpg" true).
  intros x y H. unfold sample_join in H.
  apply append_cancel_l, append_cancel_l, append_cancel_l in H. exact H.
Defined.

(** ** A negative interval *)

Lemma tag_from_sorted_down {Frame : Type} (bucket : Z -> Z)
  (cap : list Frame) : forall k,
  (forall i j, k <= i <= j -> bucket j <= bucket i) ->
  StronglySorted Z.ge (map fst (tag_from bucket k cap)).
Proof.
  induction cap as [|f cap IH]; intros k Hmono; [constructor|].
  cbn [tag_from map fst]. constructor.
  - apply IH. intros i j Hij. apply Hmono. lia.
  - apply Forall_forall. intros b Hb. apply tag_from_In in Hb.
    destruct Hb as (m & Hm & <-). apply Z.le_ge, Hmono. lia.
Qed.

Lemma buckets_seen_sorted_down tags :
  StronglySorted Z.ge tags -> StronglySorted Z.gt (buckets_seen tags).
Proof.
  induction 1 as [|a l Hs IH Hall]; simpl; constructor.
  - apply filter_StronglySorted, IH.
  - rewrite Forall_forall in *. intros x Hx. apply filter_In in Hx.
    destruct Hx as [Hx Hne]. rewrite buckets_seen_In in Hx.
    apply negb_true_iff, Z.eqb_neq in Hne.
    specialize (Hall x Hx). lia.
Qed.

(** X16: with a positive frame rate and a negative interval (which nothing
    rejects) the buckets run backwards: the yielded indices are never
    positive and strictly decrease (scores above the initial best
    score). *)
Theorem negative_interval_counts_down
  (Frame : Type) (focus_of : Frame -> Q) (cap : list Frame)
  (fps interval_sec : Q) :
  (0 < fps)%Q ->
  (interval_sec < 0)%Q ->
  (forall f, In f cap -> (-1 < focus_of f)%Q) ->
  let yielded :=
    map fst (fst (extract_best_frames focus_of cap fps interval_sec)) in
  StronglySorted Z.gt yielded /\ Forall (fun b => b <= 0) yielded.
Proof.
  intros Hf HL Hs yielded.
  assert (HL0 : ~ interval_sec == 0).
  { intros H. rewrite H in HL. discriminate HL. }
  assert (Hslope : ((0 <= fps)%Q /\ (interval_sec < 0)%Q)
                   \/ ((fps <= 0)%Q /\ (0 < interval_sec)%Q)).
  { left. split; [apply Qlt_le_weak, Hf | exact HL]. }
  assert (E : yielded
              = buckets_seen (map fst (tagged_frames cap fps interval_sec))).
  { unfold yielded. rewrite extract_brute by assumption.
    apply per_bucket_argmax_keys. }
  rewrite E. split.
  - apply buckets_seen_sorted_down, tag_from_sorted_down.
    intros i j Hij. apply code_bucket_antitone; [lia | exact Hslope].
  - apply Forall_forall. intros b Hb. rewrite buckets_seen_In in Hb.
    unfold tagged_frames in Hb. apply tag_from_In in Hb.
    destruct Hb as (i & Hi & <-).
    rewrite <- (code_bucket_0 fps interval_sec).
    apply code_bucket_antitone; [lia | exact Hslope].
Qed.

Lemma negative_interval_counts_down_witness :
  let yielded :=
    map fst (fst (extract_best_frames inject_Z [3; 5; 5; 1; 2] (2 # 1)
                    (-1 # 1))) in
  StronglySorted Z.gt yielded /\ Forall (fun b => b <= 0) yielded.
Proof.
  apply (negative_interval_counts_down Z inject_Z [3; 5; 5; 1; 2] (2 # 1)
           (-1 # 1)).
  - reflexivity.
  - reflexivity.
  - intros f Hf. simpl in Hf.
    repeat (destruct Hf as [<- | Hf]; [reflexivity|]). destruct Hf.
Defined.

Example negative_interval_example :
  extract_best_frames inject_Z [3; 5; 5; 1; 2] (2 # 1) (-1 # 1)
  = ([(0, 3); (-1, 5); (-2, 2)], Returned).
Proof. vm_compute. reflexivity. Qed.
